(** * Arc'teryx outlet tracker: inventory diff/merge and scraper rules

    A shallow embedding of [src/inventory.ts] (compareInventory,
    mergeInventory, hasChanges), of the rules of [src/scraper.ts]
    (sizeMatches, the prices and the discount of a tile, the stock of a
    product, the size filter, the loop over the categories), of the run
    of [src/index.ts] (runMonitor, sendThrottledAlert, the configuration)
    and of buildSubject of [src/notifications.ts], with the properties the
    specification states about them and further properties of the code.

    Modelling conventions.
    - A JavaScript [number] is an IEEE 754 binary64 value.  It is modelled
      by [spec_float] of the standard library with precision 53 and
      maximal exponent 1024; [<], [-], [/], [*] are the correctly rounded
      operations [SFltb], [SFsub], [SFdiv], [SFmul].
    - A JavaScript [Map] keyed by strings is a [gmap string _]; the [Map]
      constructor inserts the entries from left to right, so that the last
      entry of a key wins.
    - Strings are sequences of 8-bit characters (the labels and the prices
      are ASCII text).
    - [new Date().toISOString()] is an explicit argument [now]. *)

From Stdlib Require Import ZArith String Ascii List Permutation Sorted Lia.
From Stdlib Require Import SpecFloat.
From stdpp Require Import gmap strings list fin_maps pretty.

(** ** Numbers *)

Abbreviation number := spec_float (only parsing).

Module Number.
Definition prec : Z := 53.
Definition emax : Z := 1024.

Definition zero : number := S754_zero false.
Definition NaN : number := S754_nan.

(** [x < y] *)
Definition lt (x y : number) : bool := SFltb x y.
(** [x - y], [x / y], [x * y] *)
Definition sub (x y : number) : number := SFsub prec emax x y.
Definition div (x y : number) : number := SFdiv prec emax x y.
Definition mul (x y : number) : number := SFmul prec emax x y.

(** The number denoted by an integer literal. *)
Definition of_Z (n : Z) : number := binary_normalize prec emax n 0 false.

(** The integer [n] as an exact, not yet rounded, operand. *)
Definition exact (n : Z) : number :=
  match n with
  | Z0 => S754_zero false
  | Zpos p => S754_finite false p 0
  | Zneg p => S754_finite true p 0
  end.

(** [Math.round]: the nearest integer, a tie goes towards +infinity;
    infinities, [NaN] and zeros are returned as they are, and a result
    zero keeps the sign of the argument. *)
Definition round (x : number) : number :=
  match x with
  | S754_finite s m e =>
      if (0 <=? e)%Z then x
      else
        let d := (2 ^ (- e))%Z in
        let r := ((2 * cond_Zopp s (Zpos m) + d) / (2 * d))%Z in
        if (r =? 0)%Z then S754_zero s else of_Z r
  | _ => x
  end.

(** [x <= y] *)
Definition le (x y : number) : bool := SFleb x y.

(** An amount: [+0], [+Infinity] or a positive finite number in
    canonical form; neither [NaN] nor [-0] nor a negative number. *)
Definition isAmount (x : number) : bool :=
  match x with
  | S754_zero false | S754_infinity false => true
  | S754_finite false m e => bounded prec emax m e
  | _ => false
  end.

(** The integer a number denotes, when it denotes one. *)
Definition toInteger (x : number) : option Z :=
  match x with
  | S754_zero _ => Some 0%Z
  | S754_finite s m e =>
      if (0 <=? e)%Z then Some (cond_Zopp s (Zpos m * 2 ^ e))%Z
      else if (Zpos m mod 2 ^ (- e) =? 0)%Z
           then Some (cond_Zopp s (Zpos m / 2 ^ (- e)))%Z
           else None
  | _ => None
  end.

(** [n - 1/2 <= x < n + 1/2] for the finite number [x] of sign [s],
    mantissa [m] and exponent [e], written over the integers: [n] is the
    integer nearest to [x], a tie going towards +infinity. *)
Definition nearestInteger (s : bool) (m : positive) (e : Z) (n : Z) : Prop :=
  if (0 <=? e)%Z then n = (cond_Zopp s (Zpos m) * 2 ^ e)%Z
  else ((2 * n - 1) * 2 ^ (- e) <= 2 * cond_Zopp s (Zpos m)
        < (2 * n + 1) * 2 ^ (- e))%Z.

(** ToBoolean on a number: [0], [-0] and [NaN] are falsy. *)
Definition truthy (x : number) : bool :=
  match x with
  | S754_zero _ | S754_nan => false
  | _ => true
  end.
End Number.

(** ** types.ts *)

Module Product.
Record t := mk {
  id : string;
  name : string;
  price : number;
  originalPrice : number;
  discount : number;
  url : string;
  image : string;
  sizes : list string;
  colors : list string;
  category : string;
  firstSeen : string
}.

(** [{ ...product, firstSeen: fs }] *)
Definition with_firstSeen (product : t) (fs : string) : t :=
  mk (id product) (name product) (price product) (originalPrice product)
     (discount product) (url product) (image product) (sizes product)
     (colors product) (category product) fs.

(** [product.sizes = s] *)
Definition with_sizes (product : t) (s : list string) : t :=
  mk (id product) (name product) (price product) (originalPrice product)
     (discount product) (url product) (image product) s
     (colors product) (category product) (firstSeen product).
End Product.

Module InventoryState.
Record t := mk {
  lastUpdated : string;
  products : list Product.t
}.
End InventoryState.

Module PriceDrop.
(** An entry of [InventoryChanges.priceDrops]. *)
Record t := mk {
  product : Product.t;
  previousPrice : number
}.
End PriceDrop.

Module InventoryChanges.
Record t := mk {
  newProducts : list Product.t;
  priceDrops : list PriceDrop.t;
  removedProducts : list Product.t
}.
End InventoryChanges.

Module ScrapeResult.
Record t := mk {
  products : list Product.t;
  scrapedAt : string;
  category : string
}.
End ScrapeResult.

(** ** inventory.ts *)

(** [new Map(ps.map((p) => [p.id, p]))]: entries are set from left to
    right, a later product replaces an earlier one with the same id. *)
Definition productMap (ps : list Product.t) : gmap string Product.t :=
  foldl (fun m p => <[Product.id p := p]> m) ∅ ps.

(** [scrapeResults.flatMap((r) => r.products)] *)
Definition currentProductsOf (scrapeResults : list ScrapeResult.t) : list Product.t :=
  flat_map ScrapeResult.products scrapeResults.

(** [stored?.products || []] *)
Definition storedProductsOf (stored : option InventoryState.t) : list Product.t :=
  match stored with
  | Some s => InventoryState.products s
  | None => []
  end.

(** Body of the first loop of [compareInventory]; the accumulator holds
    [newProducts] and [priceDrops], [push] appends at the end. *)
Definition compareStep (storedMap : gmap string Product.t)
    (acc : list Product.t * list PriceDrop.t) (product : Product.t)
    : list Product.t * list PriceDrop.t :=
  match storedMap !! Product.id product with
  | None => (acc.1 ++ [product], acc.2)
  | Some existing =>
      if Number.lt (Product.price product) (Product.price existing)
      then (acc.1, acc.2 ++ [PriceDrop.mk product (Product.price existing)])
      else acc
  end.

(** Body of the second loop of [compareInventory]. *)
Definition removedStep (currentMap : gmap string Product.t)
    (acc : list Product.t) (product : Product.t) : list Product.t :=
  match currentMap !! Product.id product with
  | Some _ => acc
  | None => acc ++ [product]
  end.

Definition compareInventory (stored : option InventoryState.t)
    (scrapeResults : list ScrapeResult.t) : InventoryChanges.t :=
  let currentProducts := currentProductsOf scrapeResults in
  let storedProducts := storedProductsOf stored in
  let storedMap := productMap storedProducts in
  let currentMap := productMap currentProducts in
  let '(newProducts, priceDrops) :=
    foldl (compareStep storedMap) ([], []) currentProducts in
  let removedProducts := foldl (removedStep currentMap) [] storedProducts in
  InventoryChanges.mk newProducts priceDrops removedProducts.

(** [a || b] where [a] is a string or [undefined]: the empty string and
    [undefined] are falsy. *)
Definition orString (a : option string) (b : string) : string :=
  match a with
  | Some s => if decide (s = "") then b else s
  | None => b
  end.

(** The callback of [currentProducts.map] in [mergeInventory]. *)
Definition mergeProduct (storedMap : gmap string Product.t)
    (product : Product.t) : Product.t :=
  let existing := storedMap !! Product.id product in
  Product.with_firstSeen product
    (orString (Product.firstSeen <$> existing) (Product.firstSeen product)).

Definition mergeInventory (now : string) (stored : option InventoryState.t)
    (scrapeResults : list ScrapeResult.t) : InventoryState.t :=
  let currentProducts := currentProductsOf scrapeResults in
  let storedMap := productMap (storedProductsOf stored) in
  let mergedProducts := map (mergeProduct storedMap) currentProducts in
  InventoryState.mk now mergedProducts.

(** [!map.has(p.id)] *)
Definition absentFrom (m : gmap string Product.t) (p : Product.t) : bool :=
  match m !! Product.id p with
  | None => true
  | Some _ => false
  end.

(** The entry the first loop of [compareInventory] pushes to [priceDrops]
    for [p], if any. *)
Definition priceDropOf (storedMap : gmap string Product.t) (p : Product.t)
    : option PriceDrop.t :=
  match storedMap !! Product.id p with
  | Some existing =>
      if Number.lt (Product.price p) (Product.price existing)
      then Some (PriceDrop.mk p (Product.price existing))
      else None
  | None => None
  end.

Definition hasChanges (changes : InventoryChanges.t) : bool :=
  (0 <? length (InventoryChanges.newProducts changes))%nat
  || (0 <? length (InventoryChanges.priceDrops changes))%nat.

(** ** scraper.ts: strings *)

Definition isDigit (c : ascii) : bool :=
  let n := nat_of_ascii c in (48 <=? n)%nat && (n <=? 57)%nat.

(** One character of [String.prototype.toUpperCase] on ASCII text. *)
Definition toUpperChar (c : ascii) : ascii :=
  let n := nat_of_ascii c in
  if (97 <=? n)%nat && (n <=? 122)%nat then ascii_of_nat (n - 32) else c.

Fixpoint toUpperCase (s : string) : string :=
  match s with
  | EmptyString => EmptyString
  | String c r => String (toUpperChar c) (toUpperCase r)
  end.

(** [s.replace(/[...]/g, '')] for a character class [drop]. *)
Fixpoint removeChars (drop : ascii -> bool) (s : string) : string :=
  match s with
  | EmptyString => EmptyString
  | String c r => if drop c then removeChars drop r else String c (removeChars drop r)
  end.

(** [s.startsWith(search)] *)
Fixpoint startsWith (s search : string) {struct search} : bool :=
  match search, s with
  | EmptyString, _ => true
  | String _ _, EmptyString => false
  | String b search', String a s' => if Ascii.eqb a b then startsWith s' search' else false
  end.

(** The class [[- ]]. *)
Definition isHyphenOrSpace (c : ascii) : bool :=
  Ascii.eqb c "-" || Ascii.eqb c " ".

(** [label.toUpperCase().replace(/[- ]/g, '')] *)
Definition normalizeSize (label : string) : string :=
  removeChars isHyphenOrSpace (toUpperCase label).

Definition sizeMatches (sizeLabel filter : string) : bool :=
  let normalized := normalizeSize sizeLabel in
  let normalizedFilter := normalizeSize filter in
  if String.eqb normalized normalizedFilter then true
  else if startsWith normalized normalizedFilter then true
  else false.

(** ** scraper.ts: prices of a tile *)

(** The longest prefix of [s] in the class [f], and what follows it. *)
Fixpoint span (f : ascii -> bool) (s : string) : string * string :=
  match s with
  | EmptyString => (EmptyString, EmptyString)
  | String c r =>
      if f c then let '(a, b) := span f r in (String c a, b)
      else (EmptyString, s)
  end.

(** The class [[\d,]]. *)
Definition isDigitOrComma (c : ascii) : bool := isDigit c || Ascii.eqb c ",".

(** The class [[$,]]. *)
Definition isDollarOrComma (c : ascii) : bool := Ascii.eqb c "$" || Ascii.eqb c ",".

(** The match of [/\$[\d,]+(?:\.\d{2})?/] anchored at the start of [s]:
    a dollar sign, the longest non-empty run of digits and commas, and a
    period with two digits when they follow. *)
Definition matchPriceAt (s : string) : option string :=
  match s with
  | String "$" r =>
      let '(run, rest) := span isDigitOrComma r in
      match run with
      | EmptyString => None
      | _ =>
          match rest with
          | String "." (String d1 (String d2 _)) =>
              if isDigit d1 && isDigit d2
              then Some (String "$" (run +:+ String "." (String d1 (String d2 EmptyString))))
              else Some (String "$" run)
          | _ => Some (String "$" run)
          end
      end
  | _ => None
  end.

(** [text.match(/\$[\d,]+(?:\.\d{2})?/g) || []]: the matches from left to
    right; the search resumes after the end of a match, [skip] counts the
    characters of the last match still to pass. *)
Fixpoint matchAllPrices (skip : nat) (s : string) : list string :=
  match s with
  | EmptyString => []
  | String _ r =>
      match skip with
      | S k => matchAllPrices k r
      | O =>
          match matchPriceAt s with
          | Some m => m :: matchAllPrices (String.length m - 1) r
          | None => matchAllPrices 0 r
          end
      end
  end.

Definition digitValue (c : ascii) : Z := Z.of_nat (nat_of_ascii c) - 48.

(** The integer written by a string of decimal digits. *)
Fixpoint decimalValue (acc : Z) (ds : string) : Z :=
  match ds with
  | EmptyString => acc
  | String c r => decimalValue (10 * acc + digitValue c) r
  end.

(** [parseFloat] on an unsigned decimal literal without exponent (the
    only strings [extractProducts] passes): digits, then optionally a
    period and digits.  The result is the binary64 number nearest to the
    decimal value, [NaN] when there is no digit at all. *)
Definition parseFloat (s : string) : number :=
  let '(ip, r) := span isDigit s in
  let fp := match r with
            | String "." r' => fst (span isDigit r')
            | _ => EmptyString
            end in
  match ip +:+ fp with
  | EmptyString => Number.NaN
  | ds => Number.div (Number.exact (decimalValue 0 ds))
                     (Number.exact (10 ^ Z.of_nat (String.length fp)))
  end.

(** [xs.sort(compare)]: the stable sort; [compare(a, b) > 0] puts [a]
    after [b].  A result [NaN] of [compare] counts as [0]. *)
Fixpoint insertSorted (compare : number -> number -> number)
    (x : number) (l : list number) : list number :=
  match l with
  | [] => [x]
  | y :: l' =>
      if Number.lt Number.zero (compare x y) then y :: insertSorted compare x l'
      else x :: l
  end.

Definition sort (compare : number -> number -> number) (l : list number) : list number :=
  foldr (insertSorted compare) [] l.

(** [a || b] where [a] is a number or [undefined]. *)
Definition orNumber (a : option number) (b : number) : number :=
  match a with
  | Some x => if Number.truthy x then x else b
  | None => b
  end.

(** [priceMatches.map((p) => parseFloat(p.replace(/[$,]/g, '')))] *)
Definition parsePrice (p : string) : number :=
  parseFloat (removeChars isDollarOrComma p).

(** The array [prices] of a tile. *)
Definition tilePrices (tileText : string) : list number :=
  let priceMatches := matchAllPrices 0 tileText in
  sort (fun a b => Number.sub b a) (map parsePrice priceMatches).

(** The expression of the [discount] field. *)
Definition discountOf (originalPrice salePrice : number) : number :=
  if Number.lt salePrice originalPrice
  then Number.round
         (Number.mul
            (Number.div (Number.sub originalPrice salePrice) originalPrice)
            (Number.of_Z 100))
  else Number.zero.

(** ** scraper.ts: extractProducts *)

(** What the page yields for one tile.  Querying the DOM, cutting the slug
    out of [href], parsing the URL and choosing the name line are text
    plumbing whose results are the fields below. *)
Module Tile.
Record t := mk {
  link : option string;   (* [link.href], [None] without a shop link *)
  slug : string;          (* capture of the slug pattern, empty without a match *)
  path : string;          (* [new URL(href).pathname] *)
  name : string;          (* the chosen name line, empty when there is none *)
  innerText : string;
  image : string          (* [img?.src || img?.getAttribute('data-src') || ''] *)
}.
End Tile.

(** The result of [getProductSizeData]. *)
Module SizeData.
Record t := mk {
  sizes : list string;
  allSizes : list string
}.
End SizeData.

(** The callback of [tiles.forEach]: the record pushed for a tile together
    with its [path], or [None] when the tile is skipped. *)
Definition extractTile (baseUrl category now : string) (tile : Tile.t)
    : option (Product.t * string) :=
  match Tile.link tile with
  | None => None
  | Some href =>
      let slug := Tile.slug tile in
      match slug with
      | EmptyString => None
      | _ =>
          let name := Tile.name tile in
          if (String.length name <? 3)%nat then None
          else
            let tileText := Tile.innerText tile in
            let prices := tilePrices tileText in
            let originalPrice := orNumber (prices !! 0%nat) Number.zero in
            let salePrice :=
              orNumber (prices !! 1%nat) (orNumber (prices !! 0%nat) Number.zero) in
            Some (Product.mk slug name salePrice originalPrice
                    (discountOf originalPrice salePrice)
                    (if startsWith href "http" then href else baseUrl +:+ href)
                    (Tile.image tile) [] [] category now,
                  Tile.path tile)
      end
  end.

(** [pageData.products] *)
Definition pageProducts (baseUrl category now : string) (tiles : list Tile.t)
    : list (Product.t * string) :=
  omap (extractTile baseUrl category now) tiles.

(** Body of the loop that fetches the size data; [getProductSizeData]
    answers [None] for [null]. *)
Definition withSizeData (getProductSizeData : string -> option SizeData.t)
    (product : Product.t * string) : Product.t :=
  match getProductSizeData product.2 with
  | Some sizeData => Product.with_sizes product.1 (SizeData.sizes sizeData)
  | None => product.1
  end.

(** The callback of [products.filter] under a size filter. *)
Definition sizeFilterKeeps (sizeFilter : string) (p : Product.t) : bool :=
  if (length (Product.sizes p) =? 0)%nat then true
  else existsb (fun s => sizeMatches s sizeFilter) (Product.sizes p).

(** [extractProducts] after the page has been read: [buildId] is empty
    when the page has none, [sizeFilter] is [None] for [undefined]. *)
Definition extractProducts (baseUrl category now : string)
    (buildId : string) (tiles : list Tile.t)
    (getProductSizeData : string -> option SizeData.t)
    (sizeFilter : option string) : list Product.t :=
  let pageDataProducts := pageProducts baseUrl category now tiles in
  match buildId with
  | EmptyString => map fst pageDataProducts
  | _ =>
      let products := map (withSizeData getProductSizeData) pageDataProducts in
      match sizeFilter with
      | Some (String c f) => List.filter (sizeFilterKeeps (String c f)) products
      | _ => products
      end
  end.

(** The products of a category page with their size data, before the
    size filter is looked at. *)
Definition sizedProducts (baseUrl category now : string)
    (buildId : string) (tiles : list Tile.t)
    (getProductSizeData : string -> option SizeData.t) : list Product.t :=
  match buildId with
  | EmptyString => map fst (pageProducts baseUrl category now tiles)
  | _ => map (withSizeData getProductSizeData) (pageProducts baseUrl category now tiles)
  end.

(** ** scraper.ts: getProductSizeData *)

Module SizeOption.
Record t := mk {
  label : string;
  value : string
}.
End SizeOption.

Module Variant.
Record t := mk {
  sizeId : string;
  stockStatus : string
}.
End Variant.

(** The parsed [pageProps.product]; a field is [None] when it is missing
    ([product.sizeOptions?.options], [product.variants]). *)
Module ProductJson.
Record t := mk {
  sizeOptions : option (list SizeOption.t);
  variants : option (list Variant.t)
}.
End ProductJson.

(** What the data route answers for a URL. *)
Inductive DataRoute :=
  | RouteThrows                      (* [fetch], [resp.json()] or [JSON.parse] throws *)
  | RouteNotOk (status : nat)        (* [!resp.ok] *)
  | RouteNoProduct                   (* [data?.pageProps?.product] is missing *)
  | RouteProduct (product : ProductJson.t).

(** [variant.stockStatus === 'InStock' || variant.stockStatus === 'LowStock'] *)
Definition isInStock (stockStatus : string) : bool :=
  String.eqb stockStatus "InStock" || String.eqb stockStatus "LowStock".

(** The map [sizeIdToLabel]: [set] from left to right. *)
Definition sizeIdToLabelOf (sizeOptions : list SizeOption.t) : gmap string string :=
  foldl (fun m opt => <[SizeOption.value opt := SizeOption.label opt]> m) ∅ sizeOptions.

(** Body of the loop over the variants; [label] is kept when it is a
    non-empty string that [inStockSizes] does not include yet. *)
Definition inStockStep (sizeIdToLabel : gmap string string)
    (inStockSizes : list string) (variant : Variant.t) : list string :=
  if isInStock (Variant.stockStatus variant) then
    match sizeIdToLabel !! Variant.sizeId variant with
    | Some label =>
        if negb (String.eqb label "") && negb (bool_decide (label ∈ inStockSizes))
        then inStockSizes ++ [label]
        else inStockSizes
    | None => inStockSizes
    end
  else inStockSizes.

(** [{ sizes: inStockSizes, allSizes }] for a parsed product. *)
Definition sizeDataOf (product : ProductJson.t) : SizeData.t :=
  let sizeOptions := default [] (ProductJson.sizeOptions product) in
  let variants := default [] (ProductJson.variants product) in
  let sizeIdToLabel := sizeIdToLabelOf sizeOptions in
  let allSizes := map SizeOption.label sizeOptions in
  let inStockSizes := foldl (inStockStep sizeIdToLabel) [] variants in
  SizeData.mk inStockSizes allSizes.

Definition dataUrlOf (baseUrl buildId productPath : string) : string :=
  baseUrl +:+ "/catalog-pages/_next/data/" +:+ buildId +:+ productPath +:+ ".json".

(** [getProductSizeData]: [None] stands for [null]. *)
Definition getProductSizeData (fetch : string -> DataRoute)
    (baseUrl buildId productPath : string) : option SizeData.t :=
  match fetch (dataUrlOf baseUrl buildId productPath) with
  | RouteProduct product => Some (sizeDataOf product)
  | _ => None
  end.

(** ** scraper.ts: scrapeAllCategories *)

(** What [page.evaluate] reads from a category page. *)
Module PageData.
Record t := mk {
  buildId : string;
  tiles : list Tile.t
}.
End PageData.



(** ** notifications.ts: buildSubject *)

(** [`${n}`] for an array length is [pretty n]. *)
Definition buildSubject (changes : InventoryChanges.t) : string :=
  let newCount := length (InventoryChanges.newProducts changes) in
  let dropCount := length (InventoryChanges.priceDrops changes) in
  let parts := [] in
  let parts :=
    if (0 <? newCount)%nat then parts ++ [pretty newCount +:+ " new"] else parts in
  let parts :=
    if (0 <? dropCount)%nat
    then parts ++ [pretty dropCount +:+ " price drop"
                   +:+ (if (1 <? dropCount)%nat then "s" else "")]
    else parts in
  "Arc'teryx Outlet: " +:+ String.concat ", " parts.

(** ** index.ts *)

(** The white space [String.prototype.trim] removes, within ASCII. *)
Definition isWhiteSpace (c : ascii) : bool :=
  let n := nat_of_ascii c in
  ((9 <=? n)%nat && (n <=? 13)%nat) || (n =? 32)%nat.

Fixpoint trimStart (s : string) : string :=
  match s with
  | String c r => if isWhiteSpace c then trimStart r else s
  | EmptyString => EmptyString
  end.

Fixpoint trimEnd (s : string) : string :=
  match s with
  | String c r =>
      match trimEnd r with
      | EmptyString => if isWhiteSpace c then EmptyString else String c EmptyString
      | r' => String c r'
      end
  | EmptyString => EmptyString
  end.

(** [s.trim()] *)
Definition trim (s : string) : string := trimEnd (trimStart s).

(** [s.split(sep)] for a separator of one character. *)
Fixpoint split (sep : ascii) (s : string) : list string :=
  match s with
  | EmptyString => [EmptyString]
  | String c r =>
      if Ascii.eqb c sep then EmptyString :: split sep r
      else
        match split sep r with
        | piece :: pieces => String c piece :: pieces
        | [] => [String c EmptyString]
        end
  end.

Module Env.
Record t := mk {
  OUTLET_BASE_URL : string;
  CATEGORIES : string;
  SIZE_FILTER : string
}.
End Env.

(** [env.CATEGORIES.split(',').map((c) => c.trim())] *)
Definition categoriesOf (env : Env.t) : list string :=
  map trim (split "," (Env.CATEGORIES env)).

(** [env.SIZE_FILTER || undefined] *)
Definition sizeFilterOf (env : Env.t) : option string :=
  match Env.SIZE_FILTER env with
  | EmptyString => None
  | f => Some f
  end.

Definition ALERT_THROTTLE_MS : Z := 6 * 60 * 60 * 1000.

(** [sendThrottledAlert].  Instants are milliseconds since the epoch;
    [lastAlert] is the instant written under [ALERT_KV_KEY], [None] when
    the key is absent; [now] is the reading of [Date.now()] and [sentAt]
    the later reading of [new Date()] that is written to the key;
    [emailReturns] is [false] when [sendAlertEmail] throws.  The result
    tells whether the alert was recorded, with the new content of the
    key. *)
Definition sendThrottledAlert (lastAlert : option Z) (now sentAt : Z)
    (emailReturns : bool) : bool * option Z :=
  let throttled :=
    match lastAlert with
    | Some t => (now - t <? ALERT_THROTTLE_MS)%Z
    | None => false
    end in
  if throttled then (false, lastAlert)
  else if emailReturns then (true, Some sentAt)
  else (false, lastAlert).

(** A sequence of calls of [sendThrottledAlert], each with its two clock
    readings and the outcome of the email: the instants of the recorded
    alerts, oldest first, and the final content of the key. *)
Fixpoint alertRuns (lastAlert : option Z) (calls : list (Z * Z * bool))
    : list Z * option Z :=
  match calls with
  | [] => ([], lastAlert)
  | (now, sentAt, emailReturns) :: calls' =>
      let '(sent, lastAlert') :=
        sendThrottledAlert lastAlert now sentAt emailReturns in
      let '(times, final) := alertRuns lastAlert' calls' in
      (if sent then sentAt :: times else times, final)
  end.

Module RunResult.
Record t := mk {
  success : bool;
  message : string
}.
End RunResult.

(** What a run of [runMonitor] does when the store answers: its result,
    the error handed to [sendThrottledAlert], the changes handed to
    [sendNotification] and the state handed to [saveInventory]. *)
Module Run.
Record t := mk {
  result : RunResult.t;
  alert : option string;
  notification : option InventoryChanges.t;
  saved : option InventoryState.t
}.
End Run.

(** [scrapeResults.reduce((sum, r) => sum + r.products.length, 0)] *)
Definition totalProductsOf (scrapeResults : list ScrapeResult.t) : nat :=
  foldl (fun sum r => (sum + length (ScrapeResult.products r))%nat) 0%nat scrapeResults.

(** [runMonitor] after the scrape: [stored] is what [getStoredInventory]
    returns.  A failure of [sendNotification] is caught and changes
    nothing of what follows. *)
Definition runMonitor (env : Env.t) (now : string)
    (stored : option InventoryState.t) (scrapeResults : list ScrapeResult.t)
    : Run.t :=
  let sizeFilter := sizeFilterOf env in
  let totalProducts := totalProductsOf scrapeResults in
  if (totalProducts =? 0)%nat && negb (bool_decide (is_Some sizeFilter)) then
    let msg := "No products found - scraping may have been blocked or site structure changed" in
    Run.mk (RunResult.mk false msg) (Some msg) None None
  else
    let changes := compareInventory stored scrapeResults in
    let notification := if hasChanges changes then Some changes else None in
    let updated := mergeInventory now stored scrapeResults in
    Run.mk
      (RunResult.mk true
         ("Scraped " +:+ pretty totalProducts +:+ " products. "
          +:+ pretty (length (InventoryChanges.newProducts changes)) +:+ " new, "
          +:+ pretty (length (InventoryChanges.priceDrops changes))
          +:+ " price drops."))
      None notification (Some updated).

(** ** Sample data *)

Definition sampleProduct (id : string) (price : Z) (firstSeen : string) : Product.t :=
  Product.mk id "Alpha Pant Men's" (Number.of_Z price) (Number.of_Z 200)
    Number.zero "https://outlet.arcteryx.com/us/en/shop/mens/alpha-pant" ""
    [] [] "mens" firstSeen.

Definition sampleTile (innerText : string) : Tile.t :=
  Tile.mk (Some "https://outlet.arcteryx.com/us/en/shop/mens/alpha-pant")
    "alpha-pant" "/us/en/shop/mens/alpha-pant" "Alpha Pant Men's" innerText "".

(** What [extractTile] yields for [sampleTile] with prices 100 and 80. *)
Definition sampleExtracted : Product.t :=
  Product.mk "alpha-pant" "Alpha Pant Men's" (Number.of_Z 80) (Number.of_Z 100)
    (Number.of_Z 20) "https://outlet.arcteryx.com/us/en/shop/mens/alpha-pant" ""
    [] [] "mens/pants" "t1".

(** * Properties *)

(** ** Numbers *)

Section Binary64.
Local Open Scope Z_scope.
Local Abbreviation prec := Number.prec.
Local Abbreviation emax := Number.emax.
Local Abbreviation emin := (-1074).

Lemma fexp_eq e : fexp prec emax e = Z.max (e - 53) emin.
Proof. reflexivity. Qed.

Lemma fexp_mono a b : a <= b → fexp prec emax a <= fexp prec emax b.
Proof. rewrite !fexp_eq. lia. Qed.

(** *** Number of binary digits *)

Lemma digits2_pos_bounds p :
  2 ^ (Z.pos (digits2_pos p) - 1) <= Z.pos p < 2 ^ Z.pos (digits2_pos p).
Proof.
  induction p as [p IH|p IH|]; simpl digits2_pos; [| |simpl; lia].
  - rewrite Pos2Z.inj_succ, (Pos2Z.inj_xI p).
    replace (Z.succ (Z.pos (digits2_pos p)) - 1)
      with (Z.succ (Z.pos (digits2_pos p) - 1)) by lia.
    rewrite !Z.pow_succ_r by lia. lia.
  - rewrite Pos2Z.inj_succ, (Pos2Z.inj_xO p).
    replace (Z.succ (Z.pos (digits2_pos p)) - 1)
      with (Z.succ (Z.pos (digits2_pos p) - 1)) by lia.
    rewrite !Z.pow_succ_r by lia. lia.
Qed.

Lemma Zdigits2_log2 m : 0 < m → Zdigits2 m = Z.log2 m + 1.
Proof.
  destruct m as [|p|p]; try lia. intros _. simpl Zdigits2.
  pose proof (digits2_pos_bounds p) as H.
  assert (Z.log2 (Z.pos p) = Z.pos (digits2_pos p) - 1) as ->; [|lia].
  apply Z.log2_unique; [lia|].
  by replace (Z.succ (Z.pos (digits2_pos p) - 1)) with (Z.pos (digits2_pos p)) by lia.
Qed.

Lemma Zdigits2_nonneg m : 0 <= Zdigits2 m.
Proof. destruct m; simpl; lia. Qed.

Lemma Zdigits2_pos m : 0 < m → 0 < Zdigits2 m.
Proof. destruct m; simpl; lia. Qed.

Lemma Zdigits2_mono a b : 0 <= a <= b → Zdigits2 a <= Zdigits2 b.
Proof.
  intros [Ha Hab]. destruct (Z.eq_dec a 0) as [->|Hne].
  - apply Zdigits2_nonneg.
  - rewrite !Zdigits2_log2 by lia. pose proof (Z.log2_le_mono a b Hab). lia.
Qed.

Lemma Zdigits2_bounds m : 0 < m → 2 ^ (Zdigits2 m - 1) <= m < 2 ^ Zdigits2 m.
Proof.
  intros Hm. rewrite Zdigits2_log2 by done.
  replace (Z.log2 m + 1 - 1) with (Z.log2 m) by lia.
  apply Z.log2_spec, Hm.
Qed.

Lemma Zdigits2_ge m d : 0 <= d → 2 ^ d <= m → d + 1 <= Zdigits2 m.
Proof.
  intros Hd Hm. assert (0 < m) by (pose proof (Z.pow_pos_nonneg 2 d); lia).
  rewrite Zdigits2_log2 by done. apply Z.log2_le_pow2 in Hm; lia.
Qed.

Lemma Zdigits2_div_pow2 m n :
  0 <= m → 0 <= n → Zdigits2 (m / 2 ^ n) = Z.max 0 (Zdigits2 m - n).
Proof.
  intros Hm Hn. destruct (Z.eq_dec m 0) as [->|Hne].
  { rewrite Z.div_0_l by (pose proof (Z.pow_pos_nonneg 2 n); lia). simpl. lia. }
  assert (Hpow : 0 < 2 ^ n) by (apply Z.pow_pos_nonneg; lia).
  destruct (Z.lt_ge_cases m (2 ^ n)) as [Hlt|Hge].
  - rewrite Z.div_small by lia. simpl.
    apply Z.log2_lt_pow2 in Hlt; [|lia]. rewrite Zdigits2_log2 by lia. lia.
  - assert (0 < m / 2 ^ n) by (apply Z.div_str_pos; lia).
    rewrite !Zdigits2_log2 by lia.
    rewrite <- Z.shiftr_div_pow2, Z.log2_shiftr by lia.
    apply Z.log2_le_pow2 in Hge; lia.
Qed.

(** *** Shifting a mantissa to the right *)

Lemma iter_pos_nat {A} (f : A → A) p x :
  SpecFloat.iter_pos f p x = Nat.iter (Pos.to_nat p) f x.
Proof.
  revert x. induction p as [p IH|p IH|]; intros x.
  - change (SpecFloat.iter_pos f p~1 x)
      with (SpecFloat.iter_pos f p (SpecFloat.iter_pos f p (f x))).
    rewrite !IH, Pos2Nat.inj_xI, <- Nat.iter_add, <- Nat.iter_succ_r.
    f_equal. lia.
  - change (SpecFloat.iter_pos f p~0 x)
      with (SpecFloat.iter_pos f p (SpecFloat.iter_pos f p x)).
    rewrite !IH, Pos2Nat.inj_xO, <- Nat.iter_add. f_equal. lia.
  - done.
Qed.

Lemma shr_1_m mrs : 0 <= shr_m mrs → shr_m (shr_1 mrs) = shr_m mrs / 2.
Proof.
  destruct mrs as [m r s]. cbn [shr_m]. intros Hm.
  destruct m as [|[p|p|]|p]; try lia; cbn [shr_1 shr_m]; try done.
  - apply Z.div_unique with 1; lia.
  - apply Z.div_unique with 0; lia.
Qed.

Lemma shr_m_iter n mrs :
  0 <= shr_m mrs → shr_m (Nat.iter n shr_1 mrs) = shr_m mrs / 2 ^ Z.of_nat n.
Proof.
  intros Hm. induction n as [|n IH].
  - simpl. by rewrite Z.div_1_r.
  - rewrite Nat2Z.inj_succ, Z.pow_succ_r by lia. simpl Nat.iter.
    rewrite shr_1_m; rewrite IH.
    + rewrite Z.div_div by (try apply Z.pow_pos_nonneg; lia). f_equal. lia.
    + apply Z.div_pos; [done | apply Z.pow_pos_nonneg; lia].
Qed.

Lemma shr_spec mrs e n :
  0 <= shr_m mrs →
  shr_m (shr mrs e n).1 = shr_m mrs / 2 ^ Z.max 0 n
  ∧ (shr mrs e n).2 = e + Z.max 0 n.
Proof.
  intros Hm. destruct n as [|p|p]; simpl.
  - rewrite Z.div_1_r. lia.
  - rewrite iter_pos_nat, shr_m_iter, positive_nat_Z by done. done.
  - rewrite Z.div_1_r. lia.
Qed.

Lemma shr_record_of_loc_m m l : shr_m (shr_record_of_loc m l) = m.
Proof. by destruct l as [|[]]. Qed.

Lemma pow2_pos n : 0 < 2 ^ Z.max 0 n.
Proof. apply Z.pow_pos_nonneg; lia. Qed.

Lemma shr_fexp_gen m e l :
  0 <= m →
  let r := shr_fexp prec emax m e l in
  r.2 = Z.max e (fexp prec emax (Zdigits2 m + e))
  ∧ shr_m r.1 = m / 2 ^ (r.2 - e).
Proof.
  intros Hm. unfold shr_fexp.
  destruct (shr_spec (shr_record_of_loc m l) e
              (fexp prec emax (Zdigits2 m + e) - e)) as [H1 H2].
  { by rewrite shr_record_of_loc_m. }
  rewrite shr_record_of_loc_m in H1. cbv zeta. rewrite H1, H2.
  split; [lia|]. do 2 f_equal. lia.
Qed.

(** After [shr_fexp] the exponent is the canonical one. *)
Lemma shr_fexp_canonical m e l :
  0 <= m → e <= fexp prec emax (Zdigits2 m + e) →
  let r := shr_fexp prec emax m e l in
  0 <= shr_m r.1
  ∧ r.2 = fexp prec emax (Zdigits2 (shr_m r.1) + r.2).
Proof.
  intros Hm He r. destruct (shr_fexp_gen m e l Hm) as [H2 H1].
  fold r in H1, H2. rewrite H1.
  assert (0 <= r.2 - e) by lia.
  split; [apply Z.div_pos; [done | apply Z.pow_pos_nonneg; lia]|].
  rewrite Zdigits2_div_pow2 by lia.
  pose proof (Zdigits2_nonneg m). rewrite !fexp_eq in *. lia.
Qed.

(** A positive mantissa above the smallest exponent is not shifted out. *)
Lemma shr_fexp_pos m e l :
  0 < m → emin <= e →
  let r := shr_fexp prec emax m e l in
  0 < shr_m r.1 ∧ emin <= r.2.
Proof.
  intros Hm He r. destruct (shr_fexp_gen m e l) as [H2 H1]; [lia|].
  fold r in H1, H2. rewrite H1. split; [|lia].
  apply Z.div_str_pos. split; [apply Z.pow_pos_nonneg; lia|].
  pose proof (Zdigits2_bounds m Hm) as [Hlo _].
  pose proof (Zdigits2_pos m Hm).
  etrans; [|exact Hlo]. apply Z.pow_le_mono_r; [lia|].
  rewrite H2, fexp_eq. lia.
Qed.

Lemma round_nearest_even_bounds m l :
  m <= round_nearest_even m l <= m + 1.
Proof. destruct l as [|[]]; simpl; try destruct (Z.even m); lia. Qed.

(** The result of the rounding step is a valid number of the sign asked
    for. *)
Lemma binary_round_aux_valid sx m e l :
  0 <= m → e <= fexp prec emax (Zdigits2 m + e) →
  let r := binary_round_aux prec emax sx m e l in
  valid_binary prec emax r = true
  ∧ (r = S754_zero sx ∨ r = S754_infinity sx ∨ ∃ m' e', r = S754_finite sx m' e').
Proof.
  intros Hm He. unfold binary_round_aux.
  pose proof (shr_fexp_canonical m e l Hm He) as [Hm1 He1].
  destruct (shr_fexp prec emax m e l) as [mrs1 e1]. simpl in Hm1, He1.
  pose proof (round_nearest_even_bounds (shr_m mrs1) (loc_of_shr_record mrs1)) as Hr.
  set (m2 := round_nearest_even (shr_m mrs1) (loc_of_shr_record mrs1)) in *.
  assert (Hm2 : 0 <= m2) by lia.
  assert (He2 : e1 <= fexp prec emax (Zdigits2 m2 + e1)).
  { rewrite He1 at 1. apply fexp_mono.
    pose proof (Zdigits2_mono (shr_m mrs1) m2). lia. }
  pose proof (shr_fexp_canonical m2 e1 loc_Exact Hm2 He2) as [Hm3 He3].
  destruct (shr_fexp prec emax m2 e1 loc_Exact) as [mrs3 e3]. simpl in Hm3, He3.
  cbv zeta. destruct (shr_m mrs3) as [|p|p] eqn:Hp; [| |lia].
  - split; [done | by left].
  - destruct (e3 <=? emax - prec) eqn:Hle.
    + split; [|right; right; eauto]. simpl. unfold bounded, canonical_mantissa.
      rewrite Hle, andb_true_r. apply Z.eqb_eq. simpl in He3. done.
    + split; [done | right; by left].
Qed.

(** Above the smallest exponent a positive mantissa does not round to
    zero. *)
Lemma binary_round_aux_pos sx m e l :
  0 < m → emin <= e →
  let r := binary_round_aux prec emax sx m e l in
  r = S754_infinity sx ∨ ∃ m' e', r = S754_finite sx m' e'.
Proof.
  intros Hm He. unfold binary_round_aux.
  pose proof (shr_fexp_pos m e l Hm He) as [Hm1 He1].
  destruct (shr_fexp prec emax m e l) as [mrs1 e1]. simpl in Hm1, He1.
  pose proof (round_nearest_even_bounds (shr_m mrs1) (loc_of_shr_record mrs1)) as Hr.
  set (m2 := round_nearest_even (shr_m mrs1) (loc_of_shr_record mrs1)) in *.
  assert (Hm2 : 0 < m2) by lia.
  pose proof (shr_fexp_pos m2 e1 loc_Exact Hm2 He1) as [Hm3 He3].
  destruct (shr_fexp prec emax m2 e1 loc_Exact) as [mrs3 e3]. simpl in Hm3, He3.
  cbv zeta. destruct (shr_m mrs3) as [|p|p] eqn:Hp; [lia| |lia].
  destruct (e3 <=? emax - prec); [right; eauto | by left].
Qed.

(** The quotient handed to the rounding step has enough digits. *)
Lemma SFdiv_core_binary_spec m1 e1 m2 e2 :
  0 < m1 → 0 < m2 →
  let r := SFdiv_core_binary prec emax m1 e1 m2 e2 in
  0 <= r.1.1 ∧ r.1.2 <= fexp prec emax (Zdigits2 r.1.1 + r.1.2).
Proof.
  intros H1 H2. unfold SFdiv_core_binary.
  set (d1 := Zdigits2 m1). set (d2 := Zdigits2 m2).
  set (e' := Z.min (fexp prec emax (d1 + e1 - (d2 + e2))) (e1 - e2)).
  set (s := e1 - e2 - e'). assert (Hs : 0 <= s) by lia.
  set (m' := match s with Z.pos _ => Z.shiftl m1 s | Z0 => m1 | Z.neg _ => 0 end).
  assert (Hm' : m' = m1 * 2 ^ s).
  { unfold m'. destruct s as [|p|p] eqn:Es; [lia| |lia].
    by rewrite Z.shiftl_mul_pow2. }
  clearbody m'. cbv zeta.
  pose proof (Z.div_eucl_eq m' m2 ltac:(lia)) as Hdiv.
  pose proof (Z.mod_pos_bound m' m2 H2) as Hmod. unfold Z.modulo in Hmod.
  destruct (Z.div_eucl m' m2) as [q r] eqn:Hqr. simpl.
  assert (Hps : 0 < 2 ^ s) by (apply Z.pow_pos_nonneg; lia).
  assert (Hq : 0 <= q) by nia.
  split; [done|].
  destruct (Z.le_gt_cases e' emin) as [Hle|Hgt].
  { rewrite fexp_eq. lia. }
  assert (He' : e' <= d1 + e1 - (d2 + e2) - 53).
  { unfold e' in *. rewrite fexp_eq in *. lia. }
  assert (Hd : 53 <= Zdigits2 q); [|rewrite fexp_eq; lia].
  pose proof (Zdigits2_bounds m1 H1) as [Hlo1 _].
  pose proof (Zdigits2_bounds m2 H2) as [_ Hhi2].
  fold d1 in Hlo1. fold d2 in Hhi2.
  pose proof (Zdigits2_pos m1 H1). pose proof (Zdigits2_pos m2 H2).
  fold d1 in H. fold d2 in H0.
  apply (Zdigits2_ge q 52); [lia|].
  (* m1 * 2^s >= 2^(d1-1+s) = 2^(d1-1+s-d2) * 2^d2 > 2^52 * m2 *)
  assert (Hk : 52 + d2 <= d1 - 1 + s) by (unfold s; lia).
  assert (Hpow : 2 ^ 52 * 2 ^ d2 <= 2 ^ (d1 - 1) * 2 ^ s).
  { rewrite <- !Z.pow_add_r by lia. apply Z.pow_le_mono_r; lia. }
  assert (Hp52 : 0 < 2 ^ 52) by (apply Z.pow_pos_nonneg; lia).
  assert (Hpd1 : 0 < 2 ^ (d1 - 1)) by (apply Z.pow_pos_nonneg; lia).
  destruct (Z.lt_ge_cases q (2 ^ 52)) as [Hlt|Hge]; [|lia].
  exfalso. nia.
Qed.

(** *** The order on amounts *)

Lemma Number_lt_irrefl (x : number) : Number.lt x x = false.
Proof.
  unfold Number.lt, SFltb.
  destruct x as [s|s| |s m e]; simpl; try done; destruct s; try done;
    by rewrite Z.compare_refl, Pos.compare_cont_refl.
Qed.


Lemma Number_lt_finite m1 e1 m2 e2 :
  Number.lt (S754_finite false m1 e1) (S754_finite false m2 e2) = true
  ↔ e1 < e2 ∨ (e1 = e2 ∧ Z.pos m1 < Z.pos m2).
Proof.
  unfold Number.lt, SFltb. simpl. rewrite Pos.compare_cont_spec.
  destruct (Z.compare_spec e1 e2); simpl;
    [destruct (Pos.compare_spec m1 m2); simpl|..];
    split; try done; try lia; intros; exfalso; lia.
Qed.

Lemma Number_le_finite m1 e1 m2 e2 :
  Number.le (S754_finite false m1 e1) (S754_finite false m2 e2) = true
  ↔ e1 < e2 ∨ (e1 = e2 ∧ Z.pos m1 <= Z.pos m2).
Proof.
  unfold Number.le, SFleb. simpl. rewrite Pos.compare_cont_spec.
  destruct (Z.compare_spec e1 e2); simpl;
    [destruct (Pos.compare_spec m1 m2); simpl|..];
    split; try done; try lia; intros; exfalso; lia.
Qed.

Lemma isAmount_cases x :
  Number.isAmount x = true →
  x = S754_zero false ∨ x = S754_infinity false
  ∨ ∃ m e, x = S754_finite false m e ∧ bounded prec emax m e = true.
Proof. destruct x as [[]|[]| |[] m e]; simpl; try done; intros H; eauto 10. Qed.

Lemma Number_lt_le x y : Number.lt x y = true → Number.le x y = true.
Proof. unfold Number.lt, Number.le, SFltb, SFleb. by destruct (SFcompare x y) as [[]|]. Qed.

Lemma Number_not_lt_le x y :
  Number.isAmount x = true → Number.isAmount y = true → Number.lt x y = false → Number.le y x = true.
Proof.
  intros [->|[->|(m1 & e1 & -> & _)]]%isAmount_cases
         [->|[->|(m2 & e2 & -> & _)]]%isAmount_cases; try done.
  rewrite <- not_true_iff_false, Number_lt_finite, Number_le_finite. lia.
Qed.

Lemma Number_le_trans x y z :
  Number.isAmount x = true → Number.isAmount y = true → Number.isAmount z = true →
  Number.le x y = true → Number.le y z = true → Number.le x z = true.
Proof.
  intros [->|[->|(m1 & e1 & -> & _)]]%isAmount_cases
         [->|[->|(m2 & e2 & -> & _)]]%isAmount_cases
         [->|[->|(m3 & e3 & -> & _)]]%isAmount_cases; try done.
  rewrite !Number_le_finite. lia.
Qed.

Lemma Number_le_refl x : Number.isAmount x = true → Number.le x x = true.
Proof.
  intros [->|[->|(m1 & e1 & -> & _)]]%isAmount_cases; try done.
  rewrite Number_le_finite. lia.
Qed.

(** *** The sign of a difference *)

Lemma bounded_spec m e :
  bounded prec emax m e = true →
  emin <= e ∧ Z.pos (digits2_pos m) <= 53
  ∧ (e = emin ∨ Z.pos (digits2_pos m) = 53).
Proof.
  unfold bounded, canonical_mantissa. rewrite andb_true_iff, Z.eqb_eq, fexp_eq.
  lia.
Qed.

Lemma shl_align_fst m e e' :
  e' <= e → Z.pos (shl_align m e e').1 = Z.pos m * 2 ^ (e - e').
Proof.
  intros He. unfold shl_align. destruct (e' - e) as [|d|d] eqn:Hd; simpl fst.
  - replace (e - e') with 0 by lia. lia.
  - lia.
  - change (Pos.iter xO m d) with (shift_pos d m).
    rewrite shift_pos_correct, Z.pow_pos_fold.
    replace (e - e') with (Z.pos d) by lia. lia.
Qed.

Lemma shl_align_snd m e e' : (shl_align m e e').2 = Z.min e e'.
Proof. unfold shl_align. destruct (e' - e) eqn:Hd; simpl; lia. Qed.

Lemma binary_round_sign sx m e :
  emin <= e →
  let r := binary_round prec emax sx m e in
  r = S754_infinity sx ∨ ∃ m' e', r = S754_finite sx m' e'.
Proof.
  intros He. unfold binary_round.
  pose proof (shl_align_snd m e (fexp prec emax (Z.pos (digits2_pos m) + e))) as H.
  destruct (shl_align _ _ _) as [mz ez]. simpl in H.
  apply binary_round_aux_pos; [done|]. rewrite fexp_eq in H. lia.
Qed.

Lemma Number_lt_zero_binary_normalize d e :
  emin <= e →
  Number.lt Number.zero (binary_normalize prec emax d e false) = (0 <? d).
Proof.
  intros He. destruct d as [|p|p]; simpl binary_normalize; [done|..].
  - destruct (binary_round_sign false p e He) as [->|(m' & e' & ->)]; done.
  - destruct (binary_round_sign true p e He) as [->|(m' & e' & ->)]; done.
Qed.

(** Between amounts, [b - a > 0] exactly when [a < b]. *)
Lemma Number_lt_zero_sub a b :
  Number.isAmount a = true → Number.isAmount b = true →
  Number.lt Number.zero (Number.sub b a) = Number.lt a b.
Proof.
  intros [->|[->|(ma & ea & -> & Ha)]]%isAmount_cases
         [->|[->|(mb & eb & -> & Hb)]]%isAmount_cases; try done.
  apply bounded_spec in Ha as (Ha1 & Ha2 & Ha3).
  apply bounded_spec in Hb as (Hb1 & Hb2 & Hb3).
  unfold Number.sub, SFsub. cbv zeta. unfold cond_Zopp.
  rewrite Number_lt_zero_binary_normalize by lia.
  rewrite !shl_align_fst by lia.
  pose proof (digits2_pos_bounds ma) as [Hma1 Hma2].
  pose proof (digits2_pos_bounds mb) as [Hmb1 Hmb2].
  assert (Hmono : ∀ d, Z.pos d <= 53 → 2 ^ Z.pos d <= 2 ^ 53).
  { intros d Hd. apply Z.pow_le_mono_r; lia. }
  apply eq_true_iff_eq. rewrite Z.ltb_lt, Number_lt_finite.
  destruct (Z.lt_total ea eb) as [Hlt|[->|Hgt]].
  - rewrite Z.min_r by lia. replace (ea - ea) with 0 by lia.
    assert (Z.pos (digits2_pos mb) = 53) as Hd by lia. rewrite Hd in Hmb1.
    assert (2 ^ 1 <= 2 ^ (eb - ea)) by (apply Z.pow_le_mono_r; lia).
    pose proof (Hmono _ Ha2). change (53 - 1) with 52 in Hmb1.
    change (2 ^ 53) with (2 * 2 ^ 52) in *. change (2 ^ 1) with 2 in *.
    assert (0 < 2 ^ 52) by done.
    split; [lia|]. intros _. nia.
  - rewrite Z.min_id, Z.sub_diag. lia.
  - rewrite Z.min_l by lia. replace (eb - eb) with 0 by lia.
    assert (Z.pos (digits2_pos ma) = 53) as Hd by lia. rewrite Hd in Hma1.
    assert (2 ^ 1 <= 2 ^ (ea - eb)) by (apply Z.pow_le_mono_r; lia).
    pose proof (Hmono _ Hb2). change (53 - 1) with 52 in Hma1.
    change (2 ^ 53) with (2 * 2 ^ 52) in *. change (2 ^ 1) with 2 in *.
    assert (0 < 2 ^ 52) by done.
    split; [|lia]. intros ?. exfalso. nia.
Qed.
End Binary64.

Section Rounding.
Local Open Scope Z_scope.
Local Abbreviation prec := Number.prec.
Local Abbreviation emax := Number.emax.
Local Abbreviation emin := (-1074).

(** *** Integers and [Math.round] *)

Lemma Zdigits2_mul_pow2 m k :
  0 < m → 0 <= k → Zdigits2 (m * 2 ^ k) = Zdigits2 m + k.
Proof.
  intros Hm Hk. assert (0 < 2 ^ k) by (apply Z.pow_pos_nonneg; lia).
  rewrite !Zdigits2_log2 by nia. rewrite Z.log2_mul_pow2 by lia. lia.
Qed.

(** A mantissa of 53 digits at an exponent within range is left as it is
    by the rounding step. *)
Lemma binary_round_aux_exact sx mz ez :
  Zdigits2 (Z.pos mz) = 53 → emin <= ez <= emax - prec →
  binary_round_aux prec emax sx (Z.pos mz) ez loc_Exact = S754_finite sx mz ez.
Proof.
  intros Hd He. unfold binary_round_aux.
  assert (Hs : shr_fexp prec emax (Z.pos mz) ez loc_Exact
               = (shr_record_of_loc (Z.pos mz) loc_Exact, ez)).
  { unfold shr_fexp. rewrite Hd, fexp_eq.
    replace (Z.max (53 + ez - 53) emin - ez) with 0 by lia. done. }
  rewrite Hs. cbn [shr_record_of_loc loc_of_shr_record shr_m round_nearest_even].
  rewrite Hs. cbn [shr_record_of_loc shr_m].
  destruct (Z.leb_spec ez (emax - prec)); [done | lia].
Qed.

(** An integer below [2^53] in absolute value is a number. *)
Lemma binary_round_integer sx p :
  Z.pos p < 2 ^ 53 →
  ∃ mz ez, binary_round prec emax sx p 0 = S754_finite sx mz ez
           ∧ -52 <= ez <= 0 ∧ Z.pos mz = Z.pos p * 2 ^ (- ez).
Proof.
  intros Hp. unfold binary_round.
  pose proof (digits2_pos_bounds p) as [Hlo Hhi].
  assert (Hd : Z.pos (digits2_pos p) <= 53).
  { destruct (Z.le_gt_cases (Z.pos (digits2_pos p)) 53) as [|Hgt]; [done|].
    assert (2 ^ 53 <= 2 ^ (Z.pos (digits2_pos p) - 1))
      by (apply Z.pow_le_mono_r; lia). lia. }
  rewrite fexp_eq.
  replace (Z.max (Z.pos (digits2_pos p) + 0 - 53) emin)
    with (Z.pos (digits2_pos p) - 53) by lia.
  pose proof (shl_align_fst p 0 (Z.pos (digits2_pos p) - 53) ltac:(lia)) as Hm.
  pose proof (shl_align_snd p 0 (Z.pos (digits2_pos p) - 53)) as He.
  destruct (shl_align p 0 _) as [mz ez]. cbn [fst snd] in Hm, He.
  assert (Hez : ez = Z.pos (digits2_pos p) - 53) by lia.
  replace (0 - (Z.pos (digits2_pos p) - 53)) with (- ez) in Hm by lia.
  exists mz, ez. split; [|lia].
  apply binary_round_aux_exact; [|unfold emax, prec, Number.emax, Number.prec; lia].
  rewrite Hm, Zdigits2_mul_pow2 by lia. simpl Zdigits2. lia.
Qed.

Lemma toInteger_of_Z n :
  - 2 ^ 53 < n < 2 ^ 53 → Number.toInteger (Number.of_Z n) = Some n.
Proof.
  intros Hn. unfold Number.of_Z. destruct n as [|p|p]; [done|..]; simpl binary_normalize.
  - destruct (binary_round_integer false p) as (mz & ez & -> & He & Hm); [lia|].
    unfold Number.toInteger. rewrite Hm.
    destruct (Z.leb_spec 0 ez).
    + replace ez with 0 by lia. simpl. f_equal. lia.
    + assert (0 < 2 ^ (- ez)) by (apply Z.pow_pos_nonneg; lia).
      rewrite Z.mod_mul, Z.div_mul by lia. done.
  - destruct (binary_round_integer true p) as (mz & ez & -> & He & Hm); [lia|].
    unfold Number.toInteger. rewrite Hm.
    destruct (Z.leb_spec 0 ez).
    + replace ez with 0 by lia. simpl. f_equal. lia.
    + assert (0 < 2 ^ (- ez)) by (apply Z.pow_pos_nonneg; lia).
      rewrite Z.mod_mul, Z.div_mul by lia. done.
Qed.

(** [Math.round] of a finite number is the nearest integer, a tie going
    up. *)
Lemma round_nearestInteger s m e :
  bounded prec emax m e = true →
  ∃ n, Number.nearestInteger s m e n
       ∧ Number.toInteger (Number.round (S754_finite s m e)) = Some n.
Proof.
  intros (He & Hd & _)%bounded_spec.
  unfold Number.round, Number.nearestInteger.
  destruct (Z.leb_spec 0 e) as [Hpos | Hneg].
  - exists (cond_Zopp s (Z.pos m) * 2 ^ e). split; [done|].
    unfold Number.toInteger. destruct (Z.leb_spec 0 e); [|lia].
    f_equal. destruct s; simpl; lia.
  - cbv zeta. set (d := 2 ^ (- e)). set (v := cond_Zopp s (Z.pos m)).
    assert (Hd2 : 2 <= d).
    { change 2 with (2 ^ 1). apply Z.pow_le_mono_r; lia. }
    pose proof (digits2_pos_bounds m) as [_ Hhi].
    assert (Hm : Z.pos m < 2 ^ 53).
    { eapply Z.lt_le_trans; [exact Hhi|]. apply Z.pow_le_mono_r; lia. }
    assert (Hv : - 2 ^ 53 < v < 2 ^ 53) by (unfold v; destruct s; simpl; lia).
    pose proof (Z.div_mod (2 * v + d) (2 * d) ltac:(lia)) as Hdiv.
    pose proof (Z.mod_pos_bound (2 * v + d) (2 * d) ltac:(lia)) as Hmod.
    set (r := (2 * v + d) / (2 * d)) in *.
    exists r. split; [nia|].
    destruct (Z.eqb_spec r 0) as [-> | Hr]; [done|].
    apply toInteger_of_Z. change (2 ^ 53) with 9007199254740992 in *. nia.
Qed.

(** *** Validity of quotients and products *)

Lemma div_valid x y : valid_binary prec emax (Number.div x y) = true.
Proof.
  unfold Number.div, SFdiv.
  destruct x as [sx|sx| |sx mx ex], y as [sy|sy| |sy my ey]; try done.
  pose proof (SFdiv_core_binary_spec (Z.pos mx) ex (Z.pos my) ey) as H.
  destruct (SFdiv_core_binary _ _ _ _ _ _) as [[mz ez] lz].
  destruct H as [H1 H2]; [lia..|]. simpl in H1, H2.
  by destruct (binary_round_aux_valid (xorb sx sy) mz ez lz H1 H2).
Qed.

Lemma mul_valid x y :
  valid_binary prec emax x = true → valid_binary prec emax y = true →
  valid_binary prec emax (Number.mul x y) = true.
Proof.
  unfold Number.mul, SFmul.
  destruct x as [sx|sx| |sx mx ex], y as [sy|sy| |sy my ey]; try done.
  simpl valid_binary.
  intros (Hex & Hdx & Hcx)%bounded_spec (Hey & Hdy & Hcy)%bounded_spec.
  apply binary_round_aux_valid; [lia|].
  pose proof (digits2_pos_bounds mx) as [Hlx _].
  pose proof (digits2_pos_bounds my) as [Hly _].
  set (dx := Z.pos (digits2_pos mx)) in *. set (dy := Z.pos (digits2_pos my)) in *.
  assert (Hdd : dx + dy - 1 <= Zdigits2 (Z.pos (mx * my))).
  { replace (dx + dy - 1) with (dx + dy - 2 + 1) by lia.
    apply (Zdigits2_ge _ (dx + dy - 2)); [lia|].
    replace (dx + dy - 2) with ((dx - 1) + (dy - 1)) by lia.
    rewrite Z.pow_add_r by lia. rewrite Pos2Z.inj_mul.
    assert (0 < 2 ^ (dx - 1)) by (apply Z.pow_pos_nonneg; lia).
    assert (0 < 2 ^ (dy - 1)) by (apply Z.pow_pos_nonneg; lia).
    nia. }
  rewrite fexp_eq. lia.
Qed.
End Rounding.

Section Prices.
Local Open Scope Z_scope.

(** *** Parsing *)

Lemma span_fst_all f s :
  Forall (fun c => f c = true) (list_ascii_of_string (span f s).1).
Proof.
  induction s as [|c s IH]; simpl; [constructor|].
  destruct (f c) eqn:Hc; [|constructor].
  destruct (span f s) as [a b]. simpl in *. by constructor.
Qed.

Lemma list_ascii_of_string_app a b :
  list_ascii_of_string (a +:+ b)
  = (list_ascii_of_string a ++ list_ascii_of_string b)%list.
Proof. induction a as [|c a IH]; [done|]. cbn. by rewrite <- IH. Qed.

Lemma digitValue_nonneg c : isDigit c = true → 0 <= digitValue c.
Proof.
  unfold isDigit, digitValue. rewrite andb_true_iff, !Nat.leb_le. lia.
Qed.

Lemma decimalValue_nonneg ds acc :
  Forall (fun c => isDigit c = true) (list_ascii_of_string ds) →
  0 <= acc → 0 <= decimalValue acc ds.
Proof.
  revert acc. induction ds as [|c ds IH]; intros acc Hall Hacc; simpl; [done|].
  simpl in Hall. inversion_clear Hall as [|? ? Hc Hds].
  apply IH; [done|]. pose proof (digitValue_nonneg c Hc). lia.
Qed.

Lemma div_exact_amount n t :
  0 <= n → 0 < t →
  Number.isAmount (Number.div (Number.exact n) (Number.exact t)) = true.
Proof.
  intros Hn Ht. destruct t as [|pt|pt]; try lia.
  destruct n as [|pn|pn]; try lia; [done|].
  unfold Number.div, Number.exact, SFdiv.
  pose proof (SFdiv_core_binary_spec (Z.pos pn) 0 (Z.pos pt) 0) as H.
  destruct (SFdiv_core_binary _ _ _ _ _ _) as [[mz ez] lz].
  destruct H as [H1 H2]; [lia..|]. simpl in H1, H2.
  destruct (binary_round_aux_valid (xorb false false) mz ez lz H1 H2)
    as [Hv [->|[->|(m' & e' & Heq)]]]; try done.
  rewrite Heq in *. exact Hv.
Qed.

(** A parsed price is [NaN] or an amount. *)
Lemma parseFloat_amount s :
  parseFloat s = Number.NaN ∨ Number.isAmount (parseFloat s) = true.
Proof.
  unfold parseFloat.
  pose proof (span_fst_all isDigit s) as Hip.
  destruct (span isDigit s) as [ip r]. simpl in Hip.
  set (fp := match r with
             | String "." r' => (span isDigit r').1
             | _ => EmptyString
             end).
  assert (Hfp : Forall (fun c => isDigit c = true) (list_ascii_of_string fp)).
  { unfold fp. destruct r as [|c r']; [constructor|].
    destruct (Ascii.eqb_spec c ".") as [->|Hne].
    - apply span_fst_all.
    - destruct c as [[] [] [] [] [] [] [] []]; try constructor. done. }
  clearbody fp.
  assert (Hds : Forall (fun c => isDigit c = true)
                  (list_ascii_of_string (ip +:+ fp))).
  { rewrite list_ascii_of_string_app. by apply Forall_app. }
  destruct (ip +:+ fp) as [|c ds] eqn:E; [by left|]. right.
  apply div_exact_amount.
  - by apply decimalValue_nonneg.
  - apply Z.pow_pos_nonneg; lia.
Qed.

Lemma Number_lt_amount_zero x :
  x = Number.NaN ∨ Number.isAmount x = true → Number.lt x Number.zero = false.
Proof. intros [->|H]; [done|]. by destruct x as [[]|[]| |[] m e]. Qed.

(** *** Sorting *)

Lemma insertSorted_perm compare x l : insertSorted compare x l ≡ₚ x :: l.
Proof.
  induction l as [|y l IH]; simpl; [done|].
  destruct (Number.lt _ _); [|done]. rewrite IH. apply perm_swap.
Qed.

Lemma sort_perm compare l : sort compare l ≡ₚ l.
Proof.
  induction l as [|x l IH]; simpl; [done|].
  unfold sort in *. simpl. by rewrite insertSorted_perm, IH.
Qed.

Lemma insertSorted_descending x l :
  Number.isAmount x = true → Forall (fun y => Number.isAmount y = true) l →
  StronglySorted (fun a b => Number.le b a = true) l →
  StronglySorted (fun a b => Number.le b a = true)
    (insertSorted (fun a b => Number.sub b a) x l).
Proof.
  intros Hx Hl Hs. induction Hs as [|y l Hs IH Hy]; simpl.
  - constructor; constructor.
  - inversion_clear Hl as [|? ? Hay Hal].
    rewrite (Number_lt_zero_sub x y) by done.
    destruct (Number.lt x y) eqn:Hlt.
    + constructor; [by apply IH|].
      rewrite insertSorted_perm. constructor; [by apply Number_lt_le | done].
    + assert (Hyx : Number.le y x = true) by by apply Number_not_lt_le.
      constructor; [by constructor|]. constructor; [done|].
      rewrite Forall_forall in Hy, Hal |- *. intros z Hz.
      apply (Number_le_trans z y x); auto.
Qed.

Lemma sort_descending l :
  Forall (fun y => Number.isAmount y = true) l →
  StronglySorted (fun a b => Number.le b a = true)
    (sort (fun a b => Number.sub b a) l).
Proof.
  induction 1 as [|x l Hx Hl IH]; [constructor|].
  unfold sort in *. simpl. apply insertSorted_descending; [done| |done].
  fold (sort (fun a b => Number.sub b a) l). by rewrite sort_perm.
Qed.

Lemma parsePrice_amount text :
  Forall (fun x => x = Number.NaN ∨ Number.isAmount x = true) (tilePrices text).
Proof.
  unfold tilePrices. rewrite sort_perm. apply Forall_forall.
  intros x (m & -> & _)%list_elem_of_fmap. apply parseFloat_amount.
Qed.
End Prices.

(** ** Inventory *)

Section ProductMap.
Implicit Types (ps : list Product.t) (p e : Product.t) (k : string).

Lemma productMap_snoc ps p :
  productMap (ps ++ [p]) = <[Product.id p := p]> (productMap ps).
Proof. unfold productMap. by rewrite foldl_snoc. Qed.

Lemma productMap_lookup_None ps k :
  productMap ps !! k = None ↔ k ∉ map Product.id ps.
Proof.
  induction ps as [|p ps IH] using rev_ind.
  - split; [intros _; apply not_elem_of_nil | done].
  - rewrite productMap_snoc, map_app, lookup_insert_None, not_elem_of_app, IH.
    simpl. rewrite not_elem_of_cons. split.
    + intros [? ?]. split; [done|]. split; [congruence | apply not_elem_of_nil].
    + intros (? & ? & _). split; [done | congruence].
Qed.

Lemma productMap_lookup_Some ps k e :
  productMap ps !! k = Some e → e ∈ ps ∧ Product.id e = k.
Proof.
  induction ps as [|p ps IH] using rev_ind.
  - done.
  - rewrite productMap_snoc, lookup_insert_Some, elem_of_app.
    intros [[<- <-] | [_ H]].
    + split; [right; apply list_elem_of_singleton; done | done].
    + destruct (IH H); auto.
Qed.

Lemma productMap_is_Some ps k :
  is_Some (productMap ps !! k) ↔ ∃ e, e ∈ ps ∧ Product.id e = k.
Proof.
  rewrite <- not_eq_None_Some, productMap_lookup_None.
  split.
  - intros H. destruct (decide (k ∈ map Product.id ps)) as [Hin | Hn]; [|done].
    apply list_elem_of_fmap in Hin as (e & -> & He). eauto.
  - intros (e & He & <-) Hn. apply Hn, list_elem_of_fmap. eauto.
Qed.

Lemma productMap_lookup_NoDup ps e :
  NoDup (map Product.id ps) → e ∈ ps →
  productMap ps !! Product.id e = Some e.
Proof.
  induction ps as [|p ps IH] using rev_ind; [by intros _ ?%elem_of_nil|].
  rewrite map_app, productMap_snoc. intros Hnd Hin.
  apply NoDup_app in Hnd as (Hnd & Hdisj & _).
  apply elem_of_app in Hin as [Hin | ->%list_elem_of_singleton].
  - rewrite lookup_insert_ne; [by apply IH|].
    intros Heq. apply (Hdisj (Product.id e)).
    + apply list_elem_of_fmap. eauto.
    + simpl. rewrite Heq. apply list_elem_of_singleton. done.
  - apply lookup_insert_eq.
Qed.

Lemma productMap_perm ps ps' :
  NoDup (map Product.id ps) → ps ≡ₚ ps' → productMap ps = productMap ps'.
Proof.
  intros Hnd Hp. apply map_eq. intros k.
  assert (Hnd' : NoDup (map Product.id ps')).
  { change (NoDup (Product.id <$> ps')). by rewrite <- Hp. }
  destruct (productMap ps !! k) as [e|] eqn:He.
  - apply productMap_lookup_Some in He as [Hin <-].
    symmetry. apply productMap_lookup_NoDup; [done|]. by rewrite <- Hp.
  - symmetry. apply productMap_lookup_None.
    apply productMap_lookup_None in He. by rewrite <- Hp.
Qed.

(** The key set of the map does not depend on the order. *)
Lemma absentFrom_perm ps ps' p :
  ps ≡ₚ ps' → absentFrom (productMap ps) p = absentFrom (productMap ps') p.
Proof.
  intros Hp. unfold absentFrom.
  destruct (productMap ps !! Product.id p) eqn:H1,
           (productMap ps' !! Product.id p) eqn:H2; try done.
  - apply productMap_lookup_None in H2. apply mk_is_Some, productMap_is_Some in H1.
    destruct H1 as (e & He & Hid). exfalso. apply H2.
    apply list_elem_of_fmap. exists e. by rewrite <- Hp.
  - apply productMap_lookup_None in H1. apply mk_is_Some, productMap_is_Some in H2.
    destruct H2 as (e & He & Hid). exfalso. apply H1.
    apply list_elem_of_fmap. exists e. by rewrite Hp.
Qed.
Lemma productMap_foldl_other ps (m : gmap string Product.t) k :
  (∀ x, x ∈ ps → Product.id x ≠ k) →
  foldl (fun m p => <[Product.id p := p]> m) m ps !! k = m !! k.
Proof.
  revert m. induction ps as [|p ps IH]; intros m H; simpl; [done|].
  rewrite IH by (intros x Hx; apply H; by right).
  apply lookup_insert_ne, H. by left.
Qed.

(** The entry of the map under [k] is the last product of the list with
    id [k]. *)
Lemma productMap_lookup_last before e after :
  (∀ x, x ∈ after → Product.id x ≠ Product.id e) →
  productMap (before ++ e :: after) !! Product.id e = Some e.
Proof.
  intros H. unfold productMap. rewrite foldl_app. simpl.
  rewrite productMap_foldl_other by done. apply lookup_insert_eq.
Qed.

Lemma last_with_id ps k :
  (∃ e, e ∈ ps ∧ Product.id e = k) →
  ∃ before e after,
    ps = before ++ e :: after ∧ Product.id e = k
    ∧ ∀ x, x ∈ after → Product.id x ≠ k.
Proof.
  induction ps as [|p ps IH]; intros (e & He & Hid).
  - by apply elem_of_nil in He.
  - destruct (decide (k ∈ map Product.id ps)) as [Hin | Hn].
    + apply list_elem_of_fmap in Hin as (e' & -> & He').
      destruct IH as (before & e0 & after & -> & Hid0 & Hafter); [eauto|].
      exists (p :: before), e0, after. done.
    + exists [], p, ps. split; [done|]. split.
      * apply elem_of_cons in He as [<- | He]; [done|].
        exfalso. apply Hn, list_elem_of_fmap. eauto.
      * intros x Hx Heq. apply Hn, list_elem_of_fmap. eauto.
Qed.

Lemma productMap_lookup_Some_last ps k e :
  productMap ps !! k = Some e
  ↔ ∃ before after,
      ps = before ++ e :: after ∧ Product.id e = k
      ∧ ∀ x, x ∈ after → Product.id x ≠ k.
Proof.
  split.
  - intros He.
    destruct (last_with_id ps k) as (before & e' & after & -> & Hid & Hafter).
    { apply productMap_is_Some. eauto. }
    subst k. rewrite productMap_lookup_last in He by done.
    injection He as ->. eauto.
  - intros (before & after & -> & <- & Hafter). by apply productMap_lookup_last.
Qed.
End ProductMap.

Section CompareLoops.
Implicit Types (m : gmap string Product.t) (cur : list Product.t).

Lemma compare_loop m cur acc :
  foldl (compareStep m) acc cur
  = (acc.1 ++ List.filter (absentFrom m) cur, acc.2 ++ omap (priceDropOf m) cur).
Proof.
  revert acc. induction cur as [|p cur IH]; intros [n d]; simpl.
  - by rewrite !app_nil_r.
  - rewrite IH. unfold compareStep, absentFrom, priceDropOf. simpl.
    destruct (m !! Product.id p) as [e|]; simpl.
    + destruct (Number.lt _ _); simpl; [by rewrite <- app_assoc | done].
    + by rewrite <- app_assoc.
Qed.

Lemma removed_loop m sp acc :
  foldl (removedStep m) acc sp = acc ++ List.filter (absentFrom m) sp.
Proof.
  revert acc. induction sp as [|p sp IH]; intros acc; simpl.
  - by rewrite app_nil_r.
  - rewrite IH. unfold removedStep, absentFrom.
    destruct (m !! Product.id p); simpl; [done | by rewrite <- app_assoc].
Qed.

Lemma compareInventory_eq stored rs :
  compareInventory stored rs
  = InventoryChanges.mk
      (List.filter (absentFrom (productMap (storedProductsOf stored))) (currentProductsOf rs))
      (omap (priceDropOf (productMap (storedProductsOf stored))) (currentProductsOf rs))
      (List.filter (absentFrom (productMap (currentProductsOf rs))) (storedProductsOf stored)).
Proof.
  unfold compareInventory. rewrite compare_loop, removed_loop. done.
Qed.
End CompareLoops.

Section ListFacts.
Context {A B : Type}.

Lemma filter_none (f : A → bool) (l : list A) :
  (∀ x, x ∈ l → f x = false) → List.filter f l = [].
Proof.
  induction l as [|a l IH]; simpl; [done|]. intros H.
  rewrite (H a) by (apply elem_of_cons; auto).
  apply IH. intros x Hx. apply H. by right.
Qed.

Lemma omap_none (f : A → option B) (l : list A) :
  (∀ x, x ∈ l → f x = None) → omap f l = [].
Proof.
  induction l as [|a l IH]; simpl; [done|]. intros H.
  rewrite (H a) by (apply elem_of_cons; auto).
  apply IH. intros x Hx. apply H. by right.
Qed.

Lemma filter_perm (f : A → bool) (l l' : list A) :
  l ≡ₚ l' → List.filter f l ≡ₚ List.filter f l'.
Proof.
  induction 1 as [|x l l' _ IH|x y l|l l' l'' _ IH1 _ IH2]; simpl.
  - done.
  - destruct (f x); by rewrite IH.
  - destruct (f x), (f y); try done. apply perm_swap.
  - by rewrite IH1.
Qed.

Lemma filter_perm_ext (f g : A → bool) (l l' : list A) :
  (∀ x, f x = g x) → l ≡ₚ l' → List.filter f l ≡ₚ List.filter g l'.
Proof.
  intros Hfg Hp. rewrite (filter_ext f g Hfg). by apply filter_perm.
Qed.
End ListFacts.

(** C5.  [hasChanges] answers [true] exactly when [newProducts] or
    [priceDrops] is not empty; with both empty it answers [false] whatever
    [removedProducts] holds. *)
Theorem hasChanges_iff :
  (∀ changes,
      hasChanges changes = true
      ↔ InventoryChanges.newProducts changes ≠ []
        ∨ InventoryChanges.priceDrops changes ≠ [])
  ∧ (∀ removedProducts,
        hasChanges (InventoryChanges.mk [] [] removedProducts) = false).
Proof.
  split; [|done].
  intros [n d r]. unfold hasChanges. simpl.
  rewrite orb_true_iff, !Nat.ltb_lt.
  destruct n, d; simpl; split; intros [H|H]; try lia; try done; auto; lia.
Qed.

(** C3 fails for a stored snapshot with a repeated id.  The first run
    saves the product ["a"] twice, at 100 and at 50; the map keeps the
    second, so a current price of 80 is below the price of a stored product
    with the same id and yet no price drop is reported. *)
Lemma repeated_stored_id_hides_drop :
  let a100 := sampleProduct "a" 100 "t0" in
  let a50 := sampleProduct "a" 50 "t1" in
  let a80 := sampleProduct "a" 80 "t2" in
  let stored :=
    Some (mergeInventory "t1" None
            [ScrapeResult.mk [a100] "t0" "mens";
             ScrapeResult.mk [a50] "t1" "womens"]) in
  storedProductsOf stored = [a100; a50]
  ∧ a100 ∈ storedProductsOf stored
  ∧ Product.id a100 = Product.id a80
  ∧ Number.lt (Product.price a80) (Product.price a100) = true
  ∧ InventoryChanges.priceDrops
      (compareInventory stored [ScrapeResult.mk [a80] "t2" "mens"]) = [].
Proof.
  split; [vm_compute; reflexivity|]. split; [apply list_elem_of_here|].
  vm_compute. done.
Qed.

(** C3, amended.  An entry with product [product] and previous price
    [previousPrice] is in [priceDrops] exactly when [product] is a current
    product, the stored product list holds a product [existing] with its id
    that no later stored product shares the id with, the price of [product]
    is strictly below the price of [existing], and [previousPrice] is the
    price of [existing].  When the stored ids are pairwise different,
    [existing] is any stored product with the id of the current product.
    No other field takes part: an equal or higher price is never
    reported. *)
Theorem priceDrops_iff stored scrapeResults product previousPrice :
  (PriceDrop.mk product previousPrice
     ∈ InventoryChanges.priceDrops (compareInventory stored scrapeResults)
   ↔ product ∈ currentProductsOf scrapeResults
     ∧ ∃ before existing after,
         storedProductsOf stored = before ++ existing :: after
         ∧ Product.id existing = Product.id product
         ∧ (∀ e, e ∈ after → Product.id e ≠ Product.id product)
         ∧ Number.lt (Product.price product) (Product.price existing) = true
         ∧ previousPrice = Product.price existing)
  ∧ (NoDup (map Product.id (storedProductsOf stored)) →
     product ∈ currentProductsOf scrapeResults →
     ∀ existing,
       existing ∈ storedProductsOf stored →
       Product.id existing = Product.id product →
       (PriceDrop.mk product previousPrice
          ∈ InventoryChanges.priceDrops (compareInventory stored scrapeResults)
        ↔ Number.lt (Product.price product) (Product.price existing) = true
          ∧ previousPrice = Product.price existing)).
Proof.
  rewrite compareInventory_eq. simpl. split; [split|].
  - intros (p & Hp & H)%list_elem_of_omap. unfold priceDropOf in H.
    destruct (productMap _ !! Product.id p) as [e|] eqn:He; [|done].
    destruct (Number.lt _ _) eqn:Hlt; [|done].
    injection H as <- <-. split; [done|].
    apply productMap_lookup_Some_last in He as (before & after & ? & ? & ?).
    exists before, e, after. done.
  - intros (Hp & before & e & after & Hs & Hid & Hafter & Hlt & ->).
    apply list_elem_of_omap. exists product. split; [done|]. unfold priceDropOf.
    rewrite (proj2 (productMap_lookup_Some_last _ _ e)) by eauto.
    by rewrite Hlt.
  - intros Hnd Hp e He Hid.
    pose proof (productMap_lookup_NoDup _ _ Hnd He) as Hl. rewrite Hid in Hl.
    rewrite list_elem_of_omap. unfold priceDropOf. split.
    + intros (p & Hp' & H).
      destruct (productMap _ !! Product.id p) as [e'|] eqn:He'; [|done].
      destruct (Number.lt _ _) eqn:Hlt; [|done].
      injection H as <- <-. rewrite Hl in He'. injection He' as <-. done.
    + intros [Hlt ->]. exists product. split; [done|]. by rewrite Hl, Hlt.
Qed.

(** C2, amended.  Diffing a snapshot against its own product list gives no
    new and no removed product, and no price drop when the ids of the
    snapshot are pairwise different. *)
Theorem diff_self S scrapeResults :
  currentProductsOf scrapeResults = InventoryState.products S →
  InventoryChanges.newProducts (compareInventory (Some S) scrapeResults) = []
  ∧ InventoryChanges.removedProducts (compareInventory (Some S) scrapeResults) = []
  ∧ (NoDup (map Product.id (InventoryState.products S)) →
     InventoryChanges.priceDrops (compareInventory (Some S) scrapeResults) = []).
Proof.
  intros Hcur. rewrite compareInventory_eq, Hcur. simpl.
  assert (Habs : ∀ p, p ∈ InventoryState.products S →
            absentFrom (productMap (InventoryState.products S)) p = false).
  { intros p Hp. unfold absentFrom.
    destruct (productMap_is_Some (InventoryState.products S) (Product.id p)) as [_ H].
    destruct H as [e ->]; eauto. }
  split; [by apply filter_none|]. split; [by apply filter_none|].
  intros Hnd. apply omap_none. intros p Hp. unfold priceDropOf.
  by rewrite (productMap_lookup_NoDup _ _ Hnd Hp), Number_lt_irrefl.
Qed.

(** Every [firstSeen] of a merged snapshot is non-empty when those of the
    current products are: no snapshot that [mergeInventory] builds from
    extracted products holds an empty [firstSeen]. *)
Lemma merge_firstSeen_not_empty now stored scrapeResults :
  (∀ p, p ∈ currentProductsOf scrapeResults → Product.firstSeen p ≠ EmptyString) →
  ∀ p, p ∈ InventoryState.products (mergeInventory now stored scrapeResults) →
       Product.firstSeen p ≠ EmptyString.
Proof.
  intros Hcur p. unfold mergeInventory. simpl.
  intros (c & -> & Hc)%list_elem_of_fmap. unfold mergeProduct. simpl.
  destruct (productMap _ !! Product.id c) as [e|]; simpl; [|by apply Hcur].
  destruct (decide (Product.firstSeen e = EmptyString)); [by apply Hcur | done].
Qed.

(** C1 fails for a stored snapshot with a repeated id.  The first run
    saves the product ["a"] twice, first seen at ["t0"] and at ["t5"]; the
    map keeps the second, so the merged product has ["t5"] and not the
    [firstSeen] of the stored product first seen at ["t0"]. *)
Lemma firstSeen_of_repeated_id :
  let first := [ScrapeResult.mk [sampleProduct "a" 100 "t0"] "t0" "mens";
                ScrapeResult.mk [sampleProduct "a" 100 "t5"] "t5" "womens"] in
  let stored := Some (mergeInventory "t6" None first) in
  let current := sampleProduct "a" 100 "t9" in
  let storedP := sampleProduct "a" 100 "t0" in
  storedP ∈ storedProductsOf stored
  ∧ Product.id storedP = Product.id current
  ∧ Product.firstSeen storedP ≠ EmptyString
  ∧ ∃ merged,
      InventoryState.products
        (mergeInventory "t10" stored [ScrapeResult.mk [current] "t9" "mens"])
      = [merged]
      ∧ Product.id merged = Product.id current
      ∧ Product.firstSeen merged ≠ Product.firstSeen storedP.
Proof.
  split; [apply list_elem_of_here|]. split; [reflexivity|]. split; [discriminate|].
  eexists. split; [vm_compute; reflexivity|]. split; [reflexivity | discriminate].
Qed.

(** C1, amended.  For a current product at position [i] whose id occurs
    in the stored snapshot, where the stored products with that id have a
    non-empty [firstSeen], the merged product at position [i] has the
    [firstSeen] of the last stored product with that id, whatever the
    current [firstSeen] is; when the stored ids are pairwise different it
    is the [firstSeen] of any stored product with that id. *)
Theorem firstSeen_preserved now stored scrapeResults i product :
  currentProductsOf scrapeResults !! i = Some product →
  (∃ e, e ∈ storedProductsOf stored ∧ Product.id e = Product.id product) →
  (∀ e, e ∈ storedProductsOf stored → Product.id e = Product.id product →
        Product.firstSeen e ≠ EmptyString) →
  ∃ before existing after merged,
    storedProductsOf stored = before ++ existing :: after
    ∧ Product.id existing = Product.id product
    ∧ (∀ e, e ∈ after → Product.id e ≠ Product.id product)
    ∧ InventoryState.products (mergeInventory now stored scrapeResults) !! i
      = Some merged
    ∧ Product.id merged = Product.id product
    ∧ Product.firstSeen merged = Product.firstSeen existing
    ∧ (NoDup (map Product.id (storedProductsOf stored)) →
       ∀ e, e ∈ storedProductsOf stored → Product.id e = Product.id product →
            Product.firstSeen merged = Product.firstSeen e).
Proof.
  intros Hi Hex Hne.
  destruct (last_with_id _ _ Hex) as (before & existing & after & Hs & Hid & Hafter).
  assert (He : productMap (storedProductsOf stored) !! Product.id product
               = Some existing).
  { apply productMap_lookup_Some_last. eauto. }
  assert (Hin : existing ∈ storedProductsOf stored).
  { rewrite Hs. apply elem_of_app. right. apply list_elem_of_here. }
  assert (Hfs : Product.firstSeen
                  (mergeProduct (productMap (storedProductsOf stored)) product)
                = Product.firstSeen existing).
  { unfold mergeProduct. rewrite He. simpl.
    destruct (decide (Product.firstSeen existing = EmptyString)) as [Hempty|]; [|done].
    by destruct (Hne existing Hin Hid). }
  exists before, existing, after,
    (mergeProduct (productMap (storedProductsOf stored)) product).
  split; [done|]. split; [done|]. split; [done|]. split.
  { unfold mergeInventory. simpl.
    change (map ?f ?l) with (f <$> l). by rewrite list_lookup_fmap, Hi. }
  split; [done|]. split; [done|].
  intros Hnd e Hein Heid.
  pose proof (productMap_lookup_NoDup _ _ Hnd Hein) as H.
  rewrite Heid, He in H. injection H as <-. done.
Qed.

(** C10.  The merged products are, position by position, the current
    products: every field but [firstSeen] is that of the current product,
    and [firstSeen] is the current one or that of a stored product with the
    same id. *)
Theorem merge_frame now stored scrapeResults :
  Forall2
    (fun merged current =>
       Product.id merged = Product.id current
       ∧ Product.name merged = Product.name current
       ∧ Product.price merged = Product.price current
       ∧ Product.originalPrice merged = Product.originalPrice current
       ∧ Product.discount merged = Product.discount current
       ∧ Product.url merged = Product.url current
       ∧ Product.image merged = Product.image current
       ∧ Product.sizes merged = Product.sizes current
       ∧ Product.colors merged = Product.colors current
       ∧ Product.category merged = Product.category current
       ∧ (Product.firstSeen merged = Product.firstSeen current
          ∨ ∃ existing, existing ∈ storedProductsOf stored
              ∧ Product.id existing = Product.id current
              ∧ Product.firstSeen merged = Product.firstSeen existing))
    (InventoryState.products (mergeInventory now stored scrapeResults))
    (currentProductsOf scrapeResults).
Proof.
  unfold mergeInventory. simpl.
  induction (currentProductsOf scrapeResults) as [|p cur IH]; simpl; constructor;
    [|exact IH].
  repeat (split; [reflexivity|]).
  unfold mergeProduct.
  destruct (productMap _ !! Product.id p) as [e|] eqn:He; simpl; [|by left].
  destruct (decide (Product.firstSeen e = EmptyString)); [by left|].
  right. exists e. destruct (productMap_lookup_Some _ _ _ He). done.
Qed.

(** C2 fails when an id occurs twice: the snapshot holds id ["a"] at prices
    80 and 100, the map keeps the second, and the first is reported as a
    price drop against itself. *)
Lemma diff_self_duplicate_id :
  let S := InventoryState.mk "t0" [sampleProduct "a" 80 "t0"; sampleProduct "a" 100 "t0"] in
  InventoryChanges.priceDrops
    (compareInventory (Some S) [ScrapeResult.mk (InventoryState.products S) "t1" "mens"])
  = [PriceDrop.mk (sampleProduct "a" 80 "t0") (Number.of_Z 100)].
Proof. vm_compute. reflexivity. Qed.

(** C4 fails for a stored snapshot with a repeated id: the two orders of
    the stored list give different price drops and different merged
    products for the same current product. *)
Lemma stored_order_matters :
  let a50 := sampleProduct "a" 50 "t0" in
  let a100 := sampleProduct "a" 100 "t5" in
  let current := [ScrapeResult.mk [sampleProduct "a" 80 "t9"] "t9" "mens"] in
  let stored := Some (InventoryState.mk "t6" [a100; a50]) in
  let stored' := Some (InventoryState.mk "t6" [a50; a100]) in
  storedProductsOf stored ≡ₚ storedProductsOf stored'
  ∧ InventoryChanges.priceDrops (compareInventory stored current) = []
  ∧ InventoryChanges.priceDrops (compareInventory stored' current)
    = [PriceDrop.mk (sampleProduct "a" 80 "t9") (Number.of_Z 100)]
  ∧ InventoryState.products (mergeInventory "t10" stored current)
    = [sampleProduct "a" 80 "t0"]
  ∧ InventoryState.products (mergeInventory "t10" stored' current)
    = [sampleProduct "a" 80 "t5"]
  ∧ ¬ (InventoryChanges.priceDrops (compareInventory stored current)
       ≡ₚ InventoryChanges.priceDrops (compareInventory stored' current))
  ∧ ¬ (InventoryState.products (mergeInventory "t10" stored current)
       ≡ₚ InventoryState.products (mergeInventory "t10" stored' current)).
Proof.
  split; [apply perm_swap|].
  split; [vm_compute; reflexivity|]. split; [vm_compute; reflexivity|].
  split; [vm_compute; reflexivity|]. split; [vm_compute; reflexivity|].
  split.
  - intros H. apply Permutation_nil_l in H. vm_compute in H. discriminate.
  - intros H. apply Permutation_singleton_l in H. vm_compute in H. discriminate.
Qed.

(** C4, amended.  Permuting the current product list and the stored
    product list permutes [newProducts] and [removedProducts]; it permutes
    [priceDrops] and the merged products as well when the stored list is
    left as it is or has pairwise different ids.  The sets of the lists do
    not change. *)
Theorem order_independence now stored stored' scrapeResults scrapeResults' :
  currentProductsOf scrapeResults ≡ₚ currentProductsOf scrapeResults' →
  storedProductsOf stored ≡ₚ storedProductsOf stored' →
  InventoryChanges.newProducts (compareInventory stored scrapeResults)
    ≡ₚ InventoryChanges.newProducts (compareInventory stored' scrapeResults')
  ∧ InventoryChanges.removedProducts (compareInventory stored scrapeResults)
    ≡ₚ InventoryChanges.removedProducts (compareInventory stored' scrapeResults')
  ∧ (storedProductsOf stored = storedProductsOf stored'
     ∨ NoDup (map Product.id (storedProductsOf stored)) →
     InventoryChanges.priceDrops (compareInventory stored scrapeResults)
       ≡ₚ InventoryChanges.priceDrops (compareInventory stored' scrapeResults')
     ∧ InventoryState.products (mergeInventory now stored scrapeResults)
       ≡ₚ InventoryState.products (mergeInventory now stored' scrapeResults')).
Proof.
  intros Hcur Hsto.
  rewrite !compareInventory_eq. unfold mergeInventory. simpl.
  split; [|split].
  - apply filter_perm_ext; [|done]. intros p. by apply absentFrom_perm.
  - apply filter_perm_ext; [|done]. intros p. by apply absentFrom_perm.
  - intros Hmap.
    assert (Heq : productMap (storedProductsOf stored)
                  = productMap (storedProductsOf stored')).
    { destruct Hmap as [-> | Hnd]; [done | by apply productMap_perm]. }
    rewrite <- Heq. split; [by rewrite Hcur | by apply Permutation_map].
Qed.

(** *** Instances on sample data *)

Lemma diff_self_witness :
  let S := InventoryState.mk "t0" [sampleProduct "a" 80 "t0"; sampleProduct "b" 100 "t0"] in
  let scrapeResults :=
    [ScrapeResult.mk [sampleProduct "a" 80 "t0"] "t1" "mens";
     ScrapeResult.mk [sampleProduct "b" 100 "t0"] "t1" "womens"] in
  currentProductsOf scrapeResults = InventoryState.products S
  ∧ NoDup (map Product.id (InventoryState.products S))
  ∧ InventoryChanges.newProducts (compareInventory (Some S) scrapeResults) = []
  ∧ InventoryChanges.removedProducts (compareInventory (Some S) scrapeResults) = []
  ∧ InventoryChanges.priceDrops (compareInventory (Some S) scrapeResults) = [].
Proof.
  intros S scrapeResults.
  assert (Hcur : currentProductsOf scrapeResults = InventoryState.products S)
    by reflexivity.
  assert (Hnd : NoDup (map Product.id (InventoryState.products S))).
  { apply (bool_decide_unpack _). vm_compute. exact I. }
  destruct (diff_self S scrapeResults Hcur) as (Hn & Hr & Hd).
  split; [exact Hcur|]. split; [exact Hnd|]. split; [exact Hn|].
  split; [exact Hr | exact (Hd Hnd)].
Defined.

Lemma firstSeen_preserved_witness :
  let stored := Some (InventoryState.mk "t0" [sampleProduct "a" 100 "t0"]) in
  let product := sampleProduct "a" 80 "t1" in
  let scrapeResults := [ScrapeResult.mk [product] "t1" "mens"] in
  currentProductsOf scrapeResults !! 0%nat = Some product
  ∧ (∃ e, e ∈ storedProductsOf stored ∧ Product.id e = Product.id product)
  ∧ (∀ e, e ∈ storedProductsOf stored → Product.id e = Product.id product →
          Product.firstSeen e ≠ EmptyString)
  ∧ ∃ before existing after merged,
      storedProductsOf stored = before ++ existing :: after
      ∧ Product.id existing = Product.id product
      ∧ (∀ e, e ∈ after → Product.id e ≠ Product.id product)
      ∧ InventoryState.products (mergeInventory "t2" stored scrapeResults) !! 0%nat
        = Some merged
      ∧ Product.id merged = Product.id product
      ∧ Product.firstSeen merged = Product.firstSeen existing
      ∧ (NoDup (map Product.id (storedProductsOf stored)) →
         ∀ e, e ∈ storedProductsOf stored → Product.id e = Product.id product →
              Product.firstSeen merged = Product.firstSeen e).
Proof.
  intros stored product scrapeResults.
  assert (H1 : currentProductsOf scrapeResults !! 0%nat = Some product)
    by reflexivity.
  assert (H2 : ∃ e, e ∈ storedProductsOf stored
                    ∧ Product.id e = Product.id product).
  { exists (sampleProduct "a" 100 "t0"). split; [apply list_elem_of_here | reflexivity]. }
  assert (H3 : ∀ e, e ∈ storedProductsOf stored → Product.id e = Product.id product →
                    Product.firstSeen e ≠ EmptyString).
  { intros e He _. apply list_elem_of_singleton in He. subst e. discriminate. }
  split; [exact H1|]. split; [exact H2|]. split; [exact H3|].
  exact (firstSeen_preserved "t2" stored scrapeResults 0 product H1 H2 H3).
Defined.

Lemma order_independence_witness :
  let a := sampleProduct "a" 100 "t0" in
  let b := sampleProduct "b" 150 "t0" in
  let a' := sampleProduct "a" 80 "t1" in
  let c := sampleProduct "c" 50 "t1" in
  let stored := Some (InventoryState.mk "t0" [a; b]) in
  let stored' := Some (InventoryState.mk "t0" [b; a]) in
  let scrapeResults := [ScrapeResult.mk [a'; c] "t1" "mens"] in
  let scrapeResults' := [ScrapeResult.mk [c; a'] "t1" "mens"] in
  currentProductsOf scrapeResults ≡ₚ currentProductsOf scrapeResults'
  ∧ storedProductsOf stored ≡ₚ storedProductsOf stored'
  ∧ NoDup (map Product.id (storedProductsOf stored))
  ∧ InventoryChanges.newProducts (compareInventory stored scrapeResults)
      ≡ₚ InventoryChanges.newProducts (compareInventory stored' scrapeResults')
  ∧ InventoryChanges.removedProducts (compareInventory stored scrapeResults)
      ≡ₚ InventoryChanges.removedProducts (compareInventory stored' scrapeResults')
  ∧ InventoryChanges.priceDrops (compareInventory stored scrapeResults)
      ≡ₚ InventoryChanges.priceDrops (compareInventory stored' scrapeResults')
  ∧ InventoryState.products (mergeInventory "t2" stored scrapeResults)
      ≡ₚ InventoryState.products (mergeInventory "t2" stored' scrapeResults').
Proof.
  intros a b a' c stored stored' scrapeResults scrapeResults'.
  assert (H1 : currentProductsOf scrapeResults ≡ₚ currentProductsOf scrapeResults')
    by apply perm_swap.
  assert (H2 : storedProductsOf stored ≡ₚ storedProductsOf stored')
    by apply perm_swap.
  assert (H3 : NoDup (map Product.id (storedProductsOf stored))).
  { apply (bool_decide_unpack _). vm_compute. exact I. }
  destruct (order_independence "t2" stored stored' scrapeResults scrapeResults'
              H1 H2) as (Hn & Hr & Hrest).
  destruct (Hrest (or_intror H3)) as [Hd Hm].
  split; [exact H1|]. split; [exact H2|]. split; [exact H3|].
  split; [exact Hn|]. split; [exact Hr|]. split; [exact Hd | exact Hm].
Defined.

(** ** Scraper *)

Section Strings.
Implicit Types (s t : string).

Lemma append_cons a s t : String a s +:+ t = String a (s +:+ t).
Proof. reflexivity. Qed.

Lemma startsWith_iff s t : startsWith s t = true ↔ ∃ rest, s = t +:+ rest.
Proof.
  revert s. induction t as [|b t IH]; intros s; simpl.
  - split; [by exists s | done].
  - destruct s as [|a s]; simpl.
    + split; [done | intros [? ?]; done].
    + setoid_rewrite append_cons.
      destruct (Ascii.eqb_spec a b) as [->|Hne].
      * rewrite IH. split; intros [rest H]; exists rest; congruence.
      * split; [done | intros [rest H]; congruence].
Qed.
End Strings.

(** C6.  [sizeMatches label filter] is [true] exactly when the normalized
    label is the normalized filter or starts with it; the four examples of
    the specification. *)
Theorem sizeMatches_iff :
  (∀ label filter,
      sizeMatches label filter = true
      ↔ normalizeSize label = normalizeSize filter
        ∨ ∃ rest, normalizeSize label = normalizeSize filter +:+ rest)
  ∧ sizeMatches "L-R" "L" = true
  ∧ sizeMatches "LR" "L-R" = true
  ∧ sizeMatches "l r" "LR" = true
  ∧ sizeMatches "M-R" "L" = false.
Proof.
  split; [|by vm_compute].
  intros label filter. unfold sizeMatches.
  destruct (String.eqb_spec (normalizeSize label) (normalizeSize filter)) as [->|Hne].
  - split; [by left | done].
  - destruct (startsWith _ _) eqn:Hs.
    + split; [|done]. intros _. right. by apply startsWith_iff.
    + split; [done|]. intros [H|H]; [done|].
      apply startsWith_iff in H. congruence.
Qed.

Section Filter.
Variables (baseUrl category now : string).

Lemma extractTile_sizes tile p path :
  extractTile baseUrl category now tile = Some (p, path) → Product.sizes p = [].
Proof.
  unfold extractTile. destruct (Tile.link tile); [|done].
  destruct (Tile.slug tile); [done|].
  destruct (_ <? _)%nat; [done|]. by intros [= <- _].
Qed.

Lemma pageProducts_sizes tiles p :
  p ∈ map fst (pageProducts baseUrl category now tiles) → Product.sizes p = [].
Proof.
  intros ([q path] & -> & H)%list_elem_of_fmap.
  apply list_elem_of_omap in H as (tile & _ & H). by eapply extractTile_sizes.
Qed.

Lemma filter_all {A} (f : A → bool) (l : list A) :
  (∀ x, x ∈ l → f x = true) → List.filter f l = l.
Proof.
  induction l as [|a l IH]; simpl; [done|]. intros H.
  rewrite (H a) by (apply elem_of_cons; auto).
  f_equal. apply IH. intros x Hx. apply H. by right.
Qed.

Lemma sizeFilterKeeps_iff f p :
  sizeFilterKeeps f p = true
  ↔ Product.sizes p = [] ∨ ∃ s, s ∈ Product.sizes p ∧ sizeMatches s f = true.
Proof.
  unfold sizeFilterKeeps. destruct (Product.sizes p) as [|s0 l] eqn:Hs.
  - simpl. split; [by left | done].
  - change (length (s0 :: l) =? 0)%nat with false. cbv iota.
    rewrite existsb_exists. split.
    + intros (s & Hin & Hm). right. exists s. by rewrite list_elem_of_In.
    + intros [H | (s & Hin & Hm)]; [done|]. exists s. by rewrite <- list_elem_of_In.
Qed.

(** C9.  Under a non-empty size filter [extractProducts] returns, in
    order, exactly the products of the page that have no size or have a
    size matching the filter; without a filter, or with the empty one,
    it returns all of them. *)
Theorem size_filter buildId tiles getProductSizeData :
  (∀ c f,
      let sizeFilter := String c f in
      extractProducts baseUrl category now buildId tiles getProductSizeData
        (Some sizeFilter)
      = List.filter (sizeFilterKeeps sizeFilter)
          (sizedProducts baseUrl category now buildId tiles getProductSizeData)
      ∧ ∀ p,
          p ∈ extractProducts baseUrl category now buildId tiles
                getProductSizeData (Some sizeFilter)
          ↔ p ∈ sizedProducts baseUrl category now buildId tiles getProductSizeData
            ∧ (Product.sizes p = []
               ∨ ∃ s, s ∈ Product.sizes p ∧ sizeMatches s sizeFilter = true))
  ∧ extractProducts baseUrl category now buildId tiles getProductSizeData None
    = sizedProducts baseUrl category now buildId tiles getProductSizeData
  ∧ extractProducts baseUrl category now buildId tiles getProductSizeData
      (Some EmptyString)
    = sizedProducts baseUrl category now buildId tiles getProductSizeData.
Proof.
  split; [|by destruct buildId].
  intros c f sizeFilter.
  assert (Heq : extractProducts baseUrl category now buildId tiles
                  getProductSizeData (Some sizeFilter)
                = List.filter (sizeFilterKeeps sizeFilter)
                    (sizedProducts baseUrl category now buildId tiles
                       getProductSizeData)).
  { unfold extractProducts, sizedProducts. destruct buildId; [|done].
    symmetry. apply filter_all. intros p Hp.
    apply sizeFilterKeeps_iff. left. by eapply pageProducts_sizes. }
  split; [done|]. intros p.
  rewrite Heq, list_elem_of_In, filter_In, <- list_elem_of_In.
  by rewrite sizeFilterKeeps_iff.
Qed.
End Filter.

Section Tiles.
Variables (baseUrl category now : string).

Lemma extractTile_fields tile p path :
  extractTile baseUrl category now tile = Some (p, path) →
  let prices := tilePrices (Tile.innerText tile) in
  Product.originalPrice p = orNumber (prices !! 0%nat) Number.zero
  ∧ Product.price p
    = orNumber (prices !! 1%nat) (orNumber (prices !! 0%nat) Number.zero)
  ∧ Product.discount p = discountOf (Product.originalPrice p) (Product.price p).
Proof.
  unfold extractTile. destruct (Tile.link tile); [|done].
  destruct (Tile.slug tile); [done|].
  destruct (_ <? _)%nat; [done|]. by intros [= <- _].
Qed.

Lemma orNumber_not_negative o d :
  (∀ x, o = Some x → x = Number.NaN ∨ Number.isAmount x = true) →
  Number.lt d Number.zero = false →
  Number.lt (orNumber o d) Number.zero = false.
Proof.
  intros Ho Hd. destruct o as [x|]; simpl; [|done].
  destruct (Number.truthy x); [|done]. by apply Number_lt_amount_zero, Ho.
Qed.

(** C7.  The [discount] of the product of a tile is
    [round((originalPrice - price) / originalPrice * 100)] when
    [originalPrice > price] and [0] otherwise.  The rounding is to the
    nearest integer, a tie going up: when the product is a finite number
    [x], the discount is an integer [n] with [n - 1/2 <= x < n + 1/2].
    The discount is [0] when [originalPrice] is [0] and when [price] equals
    [originalPrice]; prices 100 and 80 give 20, 3 and 2 give 33, 8 and 7
    give 13, and 1000 and 996 give 0. *)
Theorem discount_rule tile p path :
  extractTile baseUrl category now tile = Some (p, path) →
  Product.discount p
  = (if Number.lt (Product.price p) (Product.originalPrice p)
     then Number.round
            (Number.mul
               (Number.div
                  (Number.sub (Product.originalPrice p) (Product.price p))
                  (Product.originalPrice p))
               (Number.of_Z 100))
     else Number.zero)
  ∧ (Number.lt (Product.price p) (Product.originalPrice p) = true →
     ∀ s m e,
       Number.mul
         (Number.div
            (Number.sub (Product.originalPrice p) (Product.price p))
            (Product.originalPrice p))
         (Number.of_Z 100)
       = S754_finite s m e →
       ∃ n, Number.nearestInteger s m e n
            ∧ Number.toInteger (Product.discount p) = Some n)
  ∧ (Product.originalPrice p = Number.zero → Product.discount p = Number.zero)
  ∧ (Product.price p = Product.originalPrice p → Product.discount p = Number.zero)
  ∧ discountOf (Number.of_Z 100) (Number.of_Z 80) = Number.of_Z 20
  ∧ discountOf (Number.of_Z 3) (Number.of_Z 2) = Number.of_Z 33
  ∧ discountOf (Number.of_Z 8) (Number.of_Z 7) = Number.of_Z 13
  ∧ discountOf (Number.of_Z 1000) (Number.of_Z 996) = Number.zero.
Proof.
  intros (Ho & Hs & Hd)%extractTile_fields.
  split; [exact Hd|]. split; [|split; [|split; [|by vm_compute]]].
  - intros Hlt s m e Hx. rewrite Hd. unfold discountOf. rewrite Hlt, Hx.
    apply round_nearestInteger.
    change (valid_binary Number.prec Number.emax (S754_finite s m e) = true).
    rewrite <- Hx. apply mul_valid; [apply div_valid | by vm_compute].
  - intros Hz. rewrite Hd, Hz. unfold discountOf.
    assert (Number.lt (Product.price p) Number.zero = false) as ->; [|done].
    rewrite Hs. pose proof (parsePrice_amount (Tile.innerText tile)) as Hall.
    rewrite Forall_forall in Hall.
    apply orNumber_not_negative; [|apply orNumber_not_negative; [|done]].
    all: intros x Hx; apply Hall; by eapply list_elem_of_lookup_2.
  - intros Heq. rewrite Hd, Heq. unfold discountOf. by rewrite Number_lt_irrefl.
Qed.

(** C8, amended.  When every price string of a tile parses to a number,
    [prices] is the list of the parsed values sorted in descending
    order; [originalPrice] is its first value, and [price] its second
    value when there is one and it is not zero, its first value
    otherwise; without any price string both are [0]. *)
Theorem price_extraction tile p path :
  extractTile baseUrl category now tile = Some (p, path) →
  Number.NaN ∉ map parsePrice (matchAllPrices 0 (Tile.innerText tile)) →
  let prices := tilePrices (Tile.innerText tile) in
  prices ≡ₚ map parsePrice (matchAllPrices 0 (Tile.innerText tile))
  ∧ StronglySorted (fun a b => Number.le b a = true) prices
  ∧ match prices with
    | [] => Product.originalPrice p = Number.zero
            ∧ Product.price p = Number.zero
    | [h] => Product.originalPrice p = h ∧ Product.price p = h
    | h :: s :: _ =>
        Product.originalPrice p = h
        ∧ Product.price p = (if Number.truthy s then s else h)
    end.
Proof.
  intros (Ho & Hs & _)%extractTile_fields Hnan prices.
  assert (Hperm : prices ≡ₚ map parsePrice (matchAllPrices 0 (Tile.innerText tile)))
    by apply sort_perm.
  assert (Hall : Forall (fun x => Number.isAmount x = true) prices).
  { pose proof (parsePrice_amount (Tile.innerText tile)) as Hall.
    fold prices in Hall. rewrite Forall_forall in Hall |- *.
    intros x Hx. destruct (Hall x Hx) as [->|H]; [|done].
    exfalso. apply Hnan. by rewrite <- Hperm. }
  split; [done|]. split.
  { unfold prices, tilePrices. apply sort_descending.
    rewrite <- Hperm. exact Hall. }
  assert (Hor : ∀ x, Number.isAmount x = true →
            (if Number.truthy x then x else Number.zero) = x).
  { intros x Hx. by destruct x as [[]|[]| |[] m e]. }
  fold prices in Ho, Hs. rewrite Ho, Hs.
  destruct prices as [|h [|s rest]]; unfold orNumber; simpl.
  - done.
  - inversion_clear Hall. by rewrite Hor.
  - inversion_clear Hall. rewrite Hor by done. split; [done|].
    by destruct (Number.truthy s).
Qed.
End Tiles.

(** C8 fails when the second-highest price is zero: the prices are 100
    and 0 and [price] is 100. *)
Lemma zero_second_price_skipped :
  let tile := sampleTile "Alpha Pant Men's $100 $0" in
  tilePrices (Tile.innerText tile) = [Number.of_Z 100; Number.zero]
  ∧ ∃ p path,
      extractTile "https://outlet.arcteryx.com" "mens" "t1" tile = Some (p, path)
      ∧ Product.originalPrice p = Number.of_Z 100
      ∧ Product.price p = Number.of_Z 100
      ∧ Product.price p ≠ Number.zero.
Proof.
  split; [by vm_compute|]. eexists _, _. split; [by vm_compute|].
  by vm_compute.
Qed.

Lemma discount_rule_witness :
  let tile := sampleTile "Alpha Pant Men's $100.00 $80.00" in
  let p := sampleExtracted in
  extractTile "https://outlet.arcteryx.com" "mens/pants" "t1" tile
  = Some (p, "/us/en/shop/mens/alpha-pant")
  ∧ Product.discount p
    = (if Number.lt (Product.price p) (Product.originalPrice p)
       then Number.round
              (Number.mul
                 (Number.div
                    (Number.sub (Product.originalPrice p) (Product.price p))
                    (Product.originalPrice p))
                 (Number.of_Z 100))
       else Number.zero)
  ∧ (Number.lt (Product.price p) (Product.originalPrice p) = true →
     ∀ s m e,
       Number.mul
         (Number.div
            (Number.sub (Product.originalPrice p) (Product.price p))
            (Product.originalPrice p))
         (Number.of_Z 100)
       = S754_finite s m e →
       ∃ n, Number.nearestInteger s m e n
            ∧ Number.toInteger (Product.discount p) = Some n)
  ∧ (Product.originalPrice p = Number.zero → Product.discount p = Number.zero)
  ∧ (Product.price p = Product.originalPrice p → Product.discount p = Number.zero)
  ∧ discountOf (Number.of_Z 100) (Number.of_Z 80) = Number.of_Z 20
  ∧ discountOf (Number.of_Z 3) (Number.of_Z 2) = Number.of_Z 33
  ∧ discountOf (Number.of_Z 8) (Number.of_Z 7) = Number.of_Z 13
  ∧ discountOf (Number.of_Z 1000) (Number.of_Z 996) = Number.zero.
Proof.
  intros tile p.
  assert (H : extractTile "https://outlet.arcteryx.com" "mens/pants" "t1" tile
              = Some (p, "/us/en/shop/mens/alpha-pant")) by (vm_compute; reflexivity).
  split; [exact H|].
  exact (discount_rule "https://outlet.arcteryx.com" "mens/pants" "t1" tile p
           "/us/en/shop/mens/alpha-pant" H).
Defined.

Lemma price_extraction_witness :
  let tile := sampleTile "Alpha Pant Men's $100.00 $80.00" in
  let p := sampleExtracted in
  extractTile "https://outlet.arcteryx.com" "mens/pants" "t1" tile
  = Some (p, "/us/en/shop/mens/alpha-pant")
  ∧ (Number.NaN ∉ map parsePrice (matchAllPrices 0 (Tile.innerText tile)))
  ∧ (tilePrices (Tile.innerText tile)
       ≡ₚ map parsePrice (matchAllPrices 0 (Tile.innerText tile)))
  ∧ StronglySorted (fun a b => Number.le b a = true) (tilePrices (Tile.innerText tile))
  ∧ match tilePrices (Tile.innerText tile) with
    | [] => Product.originalPrice p = Number.zero
            ∧ Product.price p = Number.zero
    | [h] => Product.originalPrice p = h ∧ Product.price p = h
    | h :: s :: _ =>
        Product.originalPrice p = h
        ∧ Product.price p = (if Number.truthy s then s else h)
    end.
Proof.
  intros tile p.
  assert (H : extractTile "https://outlet.arcteryx.com" "mens/pants" "t1" tile
              = Some (p, "/us/en/shop/mens/alpha-pant")) by (vm_compute; reflexivity).
  assert (Hnan : Number.NaN ∉ map parsePrice (matchAllPrices 0 (Tile.innerText tile))).
  { vm_compute. intros Hin. inversion Hin as [|? ? ? Hin']; subst.
    inversion Hin' as [|? ? ? Hin'']; subst. inversion Hin''. }
  split; [exact H|]. split; [exact Hnan|].
  exact (price_extraction "https://outlet.arcteryx.com" "mens/pants" "t1" tile p
           "/us/en/shop/mens/alpha-pant" H Hnan).
Defined.

(** * Further properties of the inventory *)

Section InventoryMore.
Implicit Types (stored : option InventoryState.t) (rs : list ScrapeResult.t).

Lemma absentFrom_true ps p :
  absentFrom (productMap ps) p = true ↔ ∀ e, e ∈ ps → Product.id e ≠ Product.id p.
Proof.
  unfold absentFrom. destruct (productMap ps !! Product.id p) as [e|] eqn:He.
  - split; [done|]. intros H. apply productMap_lookup_Some in He as [Hin Hid].
    by destruct (H e Hin).
  - split; [|done]. intros _ e Hin Hid.
    apply productMap_lookup_None in He. apply He, list_elem_of_fmap; eauto.
Qed.

Lemma elem_of_newProducts stored rs p :
  p ∈ InventoryChanges.newProducts (compareInventory stored rs)
  ↔ p ∈ currentProductsOf rs
    ∧ ∀ e, e ∈ storedProductsOf stored → Product.id e ≠ Product.id p.
Proof.
  rewrite compareInventory_eq. simpl.
  by rewrite list_elem_of_In, filter_In, <- list_elem_of_In, absentFrom_true.
Qed.

Lemma elem_of_removedProducts stored rs p :
  p ∈ InventoryChanges.removedProducts (compareInventory stored rs)
  ↔ p ∈ storedProductsOf stored
    ∧ ∀ c, c ∈ currentProductsOf rs → Product.id c ≠ Product.id p.
Proof.
  rewrite compareInventory_eq. simpl.
  by rewrite list_elem_of_In, filter_In, <- list_elem_of_In, absentFrom_true.
Qed.

(** X1.  A product is in [newProducts] exactly when it is a current product
    and no stored product has its id. *)
Theorem newProducts_iff stored rs p :
  p ∈ InventoryChanges.newProducts (compareInventory stored rs)
  ↔ p ∈ currentProductsOf rs
    ∧ ∀ e, e ∈ storedProductsOf stored → Product.id e ≠ Product.id p.
Proof.
  rewrite compareInventory_eq. simpl.
  by rewrite list_elem_of_In, filter_In, <- list_elem_of_In, absentFrom_true.
Qed.

(** X2.  A product is in [removedProducts] exactly when it is a stored product
    and no current product has its id. *)
Theorem removedProducts_iff stored rs p :
  p ∈ InventoryChanges.removedProducts (compareInventory stored rs)
  ↔ p ∈ storedProductsOf stored
    ∧ ∀ c, c ∈ currentProductsOf rs → Product.id c ≠ Product.id p.
Proof.
  rewrite compareInventory_eq. simpl.
  by rewrite list_elem_of_In, filter_In, <- list_elem_of_In, absentFrom_true.
Qed.

Lemma elem_of_priceDrops stored rs product previousPrice :
  PriceDrop.mk product previousPrice
    ∈ InventoryChanges.priceDrops (compareInventory stored rs)
  ↔ product ∈ currentProductsOf rs
    ∧ ∃ existing,
        productMap (storedProductsOf stored) !! Product.id product = Some existing
        ∧ existing ∈ storedProductsOf stored
        ∧ Product.id existing = Product.id product
        ∧ Number.lt (Product.price product) (Product.price existing) = true
        ∧ previousPrice = Product.price existing.
Proof.
  rewrite compareInventory_eq. simpl. rewrite list_elem_of_omap.
  unfold priceDropOf. split.
  - intros (p & Hp & H).
    destruct (productMap _ !! Product.id p) as [e|] eqn:He; [|done].
    destruct (Number.lt _ _) eqn:Hlt; [|done].
    injection H as <- <-. split; [done|]. exists e.
    destruct (productMap_lookup_Some _ _ _ He). done.
  - intros (Hp & e & He & _ & _ & Hlt & ->). exists product.
    split; [done|]. by rewrite He, Hlt.
Qed.

Lemma hasChanges_true changes :
  hasChanges changes = true
  ↔ InventoryChanges.newProducts changes ≠ []
    ∨ InventoryChanges.priceDrops changes ≠ [].
Proof.
  destruct changes as [n d r]. unfold hasChanges. simpl.
  rewrite orb_true_iff, !Nat.ltb_lt.
  destruct n, d; simpl; split; intros [H|H]; try lia; try done; auto; lia.
Qed.

Lemma mergeProduct_empty p : mergeProduct ∅ p = p.
Proof. unfold mergeProduct. rewrite lookup_empty. by destruct p. Qed.

(** X3.  Without a stored snapshot every current product is new, in the
    order of the scrape, nothing is a price drop or removed, the merged
    snapshot holds the current products unchanged, and there are changes
    exactly when a product was scraped. *)
Theorem first_run now rs :
  compareInventory None rs = InventoryChanges.mk (currentProductsOf rs) [] []
  ∧ InventoryState.products (mergeInventory now None rs) = currentProductsOf rs
  ∧ (hasChanges (compareInventory None rs) = true ↔ currentProductsOf rs ≠ []).
Proof.
  assert (H : compareInventory None rs
              = InventoryChanges.mk (currentProductsOf rs) [] []).
  { rewrite compareInventory_eq. simpl. f_equal.
    - apply filter_all. intros p _. apply absentFrom_true. by intros e ?%elem_of_nil.
    - apply omap_none. intros p _. unfold priceDropOf.
      change (productMap []) with (∅ : gmap string Product.t).
      by rewrite lookup_empty. }
  split; [exact H|]. split.
  - unfold mergeInventory. simpl.
    change (productMap []) with (∅ : gmap string Product.t).
    rewrite <- (map_id (currentProductsOf rs)) at 2.
    apply map_ext, mergeProduct_empty.
  - rewrite H. unfold hasChanges. simpl.
    destruct (currentProductsOf rs); simpl; split; done.
Qed.

(** X4.  No product id occurs in two of [newProducts], [priceDrops] and
    [removedProducts]. *)
Theorem changes_disjoint stored rs :
  let changes := compareInventory stored rs in
  (∀ n d, n ∈ InventoryChanges.newProducts changes →
          d ∈ InventoryChanges.priceDrops changes →
          Product.id n ≠ Product.id (PriceDrop.product d))
  ∧ (∀ n r, n ∈ InventoryChanges.newProducts changes →
            r ∈ InventoryChanges.removedProducts changes →
            Product.id n ≠ Product.id r)
  ∧ (∀ d r, d ∈ InventoryChanges.priceDrops changes →
            r ∈ InventoryChanges.removedProducts changes →
            Product.id (PriceDrop.product d) ≠ Product.id r).
Proof.
  intros changes. unfold changes. split; [|split].
  - intros n [dp prev] [_ Hn]%elem_of_newProducts
      (_ & e & _ & He & Hid & _)%elem_of_priceDrops Heq.
    simpl in Heq. apply (Hn e He). congruence.
  - intros n r [_ Hn]%elem_of_newProducts [Hr _]%elem_of_removedProducts Heq.
    by apply (Hn r Hr).
  - intros [dp prev] r (Hd & _)%elem_of_priceDrops [_ Hr]%elem_of_removedProducts Heq.
    by apply (Hr dp Hd).
Qed.

Lemma mergeProduct_id m p : Product.id (mergeProduct m p) = Product.id p.
Proof. done. Qed.

Lemma merge_ids_eq now stored rs :
  map Product.id (InventoryState.products (mergeInventory now stored rs))
  = map Product.id (currentProductsOf rs).
Proof.
  unfold mergeInventory. simpl. rewrite map_map. by apply map_ext.
Qed.

(** X5.  The merged snapshot is stamped with [now], holds the ids of the
    current products in their order, and holds no id of a removed
    product. *)
Theorem merge_keeps_current_ids now stored rs :
  InventoryState.lastUpdated (mergeInventory now stored rs) = now
  ∧ map Product.id (InventoryState.products (mergeInventory now stored rs))
    = map Product.id (currentProductsOf rs)
  ∧ ∀ r, r ∈ InventoryChanges.removedProducts (compareInventory stored rs) →
         ∀ m, m ∈ InventoryState.products (mergeInventory now stored rs) →
              Product.id m ≠ Product.id r.
Proof.
  split; [done|]. split; [apply merge_ids_eq|].
  intros r [_ Hr]%elem_of_removedProducts m Hm Heq.
  assert (Hin : Product.id m ∈ map Product.id (currentProductsOf rs)).
  { rewrite <- (merge_ids_eq now stored rs). apply list_elem_of_fmap; eauto. }
  apply list_elem_of_fmap in Hin as (c & Hid & Hc). apply (Hr c Hc). congruence.
Qed.

(** X6.  A current product whose id is not stored is copied to the merged
    snapshot as it is, at its position. *)
Theorem merge_new_product_unchanged now stored rs i p :
  currentProductsOf rs !! i = Some p →
  (∀ e, e ∈ storedProductsOf stored → Product.id e ≠ Product.id p) →
  InventoryState.products (mergeInventory now stored rs) !! i = Some p.
Proof.
  intros Hi Hnew. unfold mergeInventory. simpl.
  change (map ?f ?l) with (f <$> l). rewrite list_lookup_fmap, Hi. simpl. f_equal.
  apply absentFrom_true in Hnew. unfold absentFrom in Hnew. unfold mergeProduct.
  destruct (productMap _ !! Product.id p); [done|]. by destruct p.
Qed.

Lemma merged_lookup now stored rs p :
  NoDup (map Product.id (currentProductsOf rs)) →
  p ∈ currentProductsOf rs →
  productMap (InventoryState.products (mergeInventory now stored rs)) !! Product.id p
  = Some (mergeProduct (productMap (storedProductsOf stored)) p).
Proof.
  intros Hnd Hp.
  rewrite <- (mergeProduct_id (productMap (storedProductsOf stored)) p).
  apply productMap_lookup_NoDup.
  - by rewrite merge_ids_eq.
  - unfold mergeInventory. simpl. apply list_elem_of_fmap. eauto.
Qed.

(** X7.  When the scraped ids are pairwise different, diffing the same scrape
    against the snapshot merged from it reports nothing. *)
Theorem rerun_is_quiet now stored rs :
  NoDup (map Product.id (currentProductsOf rs)) →
  compareInventory (Some (mergeInventory now stored rs)) rs
  = InventoryChanges.mk [] [] [].
Proof.
  intros Hnd. rewrite compareInventory_eq. f_equal.
  - apply filter_none. intros p Hp. unfold absentFrom.
    change (storedProductsOf (Some ?s)) with (InventoryState.products s).
    by rewrite (merged_lookup now stored rs p Hnd Hp).
  - apply omap_none. intros p Hp. unfold priceDropOf.
    change (storedProductsOf (Some ?s)) with (InventoryState.products s).
    rewrite (merged_lookup now stored rs p Hnd Hp).
    change (Product.price (mergeProduct _ p)) with (Product.price p).
    by rewrite Number_lt_irrefl.
  - apply filter_none. intros m Hm. apply not_true_iff_false.
    rewrite absentFrom_true. intros H.
    change (storedProductsOf (Some ?s)) with (InventoryState.products s) in Hm.
    assert (Hin : Product.id m ∈ map Product.id (currentProductsOf rs)).
    { rewrite <- (merge_ids_eq now stored rs). apply list_elem_of_fmap; eauto. }
    apply list_elem_of_fmap in Hin as (c & Hid & Hc). apply (H c Hc). congruence.
Qed.

(** X8.  When the scraped ids are pairwise different, merging the same scrape
    into the snapshot merged from it gives the same products. *)
Theorem merge_idempotent now now' stored rs :
  NoDup (map Product.id (currentProductsOf rs)) →
  InventoryState.products
    (mergeInventory now' (Some (mergeInventory now stored rs)) rs)
  = InventoryState.products (mergeInventory now stored rs).
Proof.
  intros Hnd. unfold mergeInventory.
  cbn [InventoryState.products storedProductsOf].
  apply map_ext_in. intros p Hp%list_elem_of_In.
  pose proof (merged_lookup now stored rs p Hnd Hp) as HL.
  unfold mergeInventory in HL. cbn [InventoryState.products] in HL.
  unfold mergeProduct at 1. rewrite HL.
  unfold mergeProduct. simpl.
  destruct (productMap (storedProductsOf stored) !! Product.id p) as [e|]; simpl.
  - destruct (decide (Product.firstSeen e = "")) as [He|He].
    + by destruct (decide (Product.firstSeen p = "")).
    + by destruct (decide (Product.firstSeen e = "")).
  - by destruct (decide (Product.firstSeen p = "")).
Qed.

End InventoryMore.

Lemma merge_new_product_unchanged_witness :
  let stored := Some (InventoryState.mk "t0" [sampleProduct "a" 100 "t0"]) in
  let p := sampleProduct "b" 50 "t1" in
  let rs := [ScrapeResult.mk [p] "t1" "mens"] in
  currentProductsOf rs !! 0%nat = Some p
  ∧ (∀ e, e ∈ storedProductsOf stored → Product.id e ≠ Product.id p)
  ∧ InventoryState.products (mergeInventory "t2" stored rs) !! 0%nat = Some p.
Proof.
  intros stored p rs.
  assert (H1 : currentProductsOf rs !! 0%nat = Some p) by reflexivity.
  assert (H2 : ∀ e, e ∈ storedProductsOf stored → Product.id e ≠ Product.id p).
  { intros e He. apply list_elem_of_singleton in He. rewrite He. discriminate. }
  split; [exact H1|]. split; [exact H2|].
  exact (merge_new_product_unchanged "t2" stored rs 0 p H1 H2).
Defined.

Lemma rerun_is_quiet_witness :
  let stored := Some (InventoryState.mk "t0" [sampleProduct "a" 100 "t0"]) in
  let rs := [ScrapeResult.mk [sampleProduct "a" 80 "t1"; sampleProduct "b" 50 "t1"] "t1" "mens"] in
  NoDup (map Product.id (currentProductsOf rs))
  ∧ compareInventory (Some (mergeInventory "t2" stored rs)) rs
    = InventoryChanges.mk [] [] [].
Proof.
  intros stored rs.
  assert (H : NoDup (map Product.id (currentProductsOf rs))).
  { apply (bool_decide_unpack _). vm_compute. exact I. }
  split; [exact H|]. exact (rerun_is_quiet "t2" stored rs H).
Defined.

Lemma merge_idempotent_witness :
  let stored := Some (InventoryState.mk "t0" [sampleProduct "a" 100 "t0"]) in
  let rs := [ScrapeResult.mk [sampleProduct "a" 80 "t1"; sampleProduct "b" 50 "t1"] "t1" "mens"] in
  NoDup (map Product.id (currentProductsOf rs))
  ∧ InventoryState.products
      (mergeInventory "t3" (Some (mergeInventory "t2" stored rs)) rs)
    = InventoryState.products (mergeInventory "t2" stored rs).
Proof.
  intros stored rs.
  assert (H : NoDup (map Product.id (currentProductsOf rs))).
  { apply (bool_decide_unpack _). vm_compute. exact I. }
  split; [exact H|]. exact (merge_idempotent "t2" "t3" stored rs H).
Defined.

(** * The monitor run *)

Section RunMore.
Implicit Types (env : Env.t) (stored : option InventoryState.t)
  (rs : list ScrapeResult.t).

Lemma totalProductsOf_length rs :
  totalProductsOf rs = length (currentProductsOf rs).
Proof.
  unfold totalProductsOf, currentProductsOf.
  assert (H : ∀ n, foldl (fun sum r => (sum + length (ScrapeResult.products r))%nat) n rs
                   = (n + length (flat_map ScrapeResult.products rs))%nat).
  { induction rs as [|r rs IH]; intros n; simpl; [lia|].
    rewrite IH, length_app. lia. }
  by rewrite H.
Qed.

(** X9.  A run that scraped no product fails, asks for an alert and saves
    nothing when no size filter is set; with a size filter it succeeds,
    sends no notification, saves an empty snapshot, and every stored
    product counts as removed. *)
Theorem run_without_products env now stored rs :
  currentProductsOf rs = [] →
  (Env.SIZE_FILTER env = EmptyString →
     RunResult.success (Run.result (runMonitor env now stored rs)) = false
     ∧ is_Some (Run.alert (runMonitor env now stored rs))
     ∧ Run.notification (runMonitor env now stored rs) = None
     ∧ Run.saved (runMonitor env now stored rs) = None)
  ∧ (Env.SIZE_FILTER env ≠ EmptyString →
       RunResult.success (Run.result (runMonitor env now stored rs)) = true
       ∧ Run.alert (runMonitor env now stored rs) = None
       ∧ Run.notification (runMonitor env now stored rs) = None
       ∧ Run.saved (runMonitor env now stored rs) = Some (InventoryState.mk now [])
       ∧ InventoryChanges.removedProducts (compareInventory stored rs)
         = storedProductsOf stored).
Proof.
  intros Hcur. unfold runMonitor. rewrite totalProductsOf_length, Hcur. simpl.
  unfold sizeFilterOf. split.
  - intros ->. simpl. eauto.
  - intros Hf. destruct (Env.SIZE_FILTER env) as [|c f] eqn:Ef; [done|]. simpl.
    assert (Hc : compareInventory stored rs
                 = InventoryChanges.mk [] [] (storedProductsOf stored)).
    { rewrite compareInventory_eq, Hcur. simpl. f_equal.
      apply filter_all. intros p _. apply absentFrom_true. by intros e ?%elem_of_nil. }
    rewrite Hc. simpl. unfold mergeInventory. rewrite Hcur. done.
Qed.

(** X10.  A run that scraped a product succeeds without alert and saves the
    merged snapshot; it hands the changes to the notification exactly when
    a current product has an id that is not stored or a price strictly
    below the price stored under its id. *)
Theorem run_with_products env now stored rs :
  currentProductsOf rs ≠ [] →
  let run := runMonitor env now stored rs in
  RunResult.success (Run.result run) = true
  ∧ Run.alert run = None
  ∧ Run.saved run = Some (mergeInventory now stored rs)
  ∧ (Run.notification run = Some (compareInventory stored rs)
     ∨ Run.notification run = None)
  ∧ (is_Some (Run.notification run)
     ↔ (∃ p, p ∈ currentProductsOf rs
             ∧ ∀ e, e ∈ storedProductsOf stored → Product.id e ≠ Product.id p)
       ∨ ∃ p e, p ∈ currentProductsOf rs
                ∧ productMap (storedProductsOf stored) !! Product.id p = Some e
                ∧ Number.lt (Product.price p) (Product.price e) = true).
Proof.
  intros Hcur run. unfold run, runMonitor.
  rewrite totalProductsOf_length.
  destruct (currentProductsOf rs) as [|p0 l] eqn:E; [done|]. simpl.
  split; [done|]. split; [done|]. split; [done|].
  split; [destruct (hasChanges _); eauto|].
  assert (Hh : is_Some (if hasChanges (compareInventory stored rs)
                        then Some (compareInventory stored rs) else None)
               ↔ hasChanges (compareInventory stored rs) = true).
  { destruct (hasChanges _); [split; eauto | split; [by intros [? ?] | done]]. }
  rewrite Hh, hasChanges_true.
  rewrite <- E. split.
  - intros [Hn|Hd].
    + left. destruct (InventoryChanges.newProducts _) as [|p l'] eqn:En; [done|].
      exists p. apply elem_of_newProducts. rewrite En. apply list_elem_of_here.
    + right. destruct (InventoryChanges.priceDrops _) as [|[p prev] l'] eqn:Ed; [done|].
      assert (Hin : PriceDrop.mk p prev
                    ∈ InventoryChanges.priceDrops (compareInventory stored rs)).
      { rewrite Ed. apply list_elem_of_here. }
      apply elem_of_priceDrops in Hin as (Hp & e & He & _ & _ & Hlt & _). eauto.
  - intros [(p & Hp)|(p & e & Hp & He & Hlt)].
    + left. apply elem_of_newProducts in Hp. intros Hnil. rewrite Hnil in Hp.
      by apply elem_of_nil in Hp.
    + right.
      assert (Hin : PriceDrop.mk p (Product.price e)
                    ∈ InventoryChanges.priceDrops (compareInventory stored rs)).
      { apply elem_of_priceDrops. split; [done|]. exists e.
        destruct (productMap_lookup_Some _ _ _ He). done. }
      intros Hnil. rewrite Hnil in Hin. by apply elem_of_nil in Hin.
Qed.
End RunMore.

Lemma run_without_products_witness :
  let env := Env.mk "https://outlet.arcteryx.com" "mens/pants" "L" in
  let stored := Some (InventoryState.mk "t0" [sampleProduct "a" 100 "t0"]) in
  let rs := [ScrapeResult.mk [] "t1" "mens/pants"] in
  currentProductsOf rs = []
  ∧ Env.SIZE_FILTER env ≠ EmptyString
  ∧ RunResult.success (Run.result (runMonitor env "t2" stored rs)) = true
  ∧ Run.alert (runMonitor env "t2" stored rs) = None
  ∧ Run.notification (runMonitor env "t2" stored rs) = None
  ∧ Run.saved (runMonitor env "t2" stored rs) = Some (InventoryState.mk "t2" [])
  ∧ InventoryChanges.removedProducts (compareInventory stored rs)
    = storedProductsOf stored.
Proof.
  intros env stored rs.
  assert (H : currentProductsOf rs = []) by reflexivity.
  assert (Hf : Env.SIZE_FILTER env ≠ EmptyString) by discriminate.
  split; [exact H|]. split; [exact Hf|].
  exact (proj2 (run_without_products env "t2" stored rs H) Hf).
Defined.

Lemma run_with_products_witness :
  let env := Env.mk "https://outlet.arcteryx.com" "mens/pants" "" in
  let stored := Some (InventoryState.mk "t0" [sampleProduct "a" 100 "t0"]) in
  let rs := [ScrapeResult.mk [sampleProduct "a" 80 "t1"] "t1" "mens/pants"] in
  currentProductsOf rs ≠ []
  ∧ RunResult.success (Run.result (runMonitor env "t2" stored rs)) = true
  ∧ Run.saved (runMonitor env "t2" stored rs) = Some (mergeInventory "t2" stored rs).
Proof.
  intros env stored rs.
  assert (H : currentProductsOf rs ≠ []) by discriminate.
  destruct (run_with_products env "t2" stored rs H) as (H1 & _ & H3 & _).
  split; [exact H|]. split; [exact H1 | exact H3].
Defined.


(** * Configuration, alerts and the subject line *)

Section ConfigMore.

Lemma split_cons sep c r :
  split sep (String c r)
  = if Ascii.eqb c sep then EmptyString :: split sep r
    else match split sep r with
         | piece :: pieces => String c piece :: pieces
         | [] => [String c EmptyString]
         end.
Proof. done. Qed.

Lemma split_not_nil sep s : split sep s ≠ [].
Proof.
  destruct s as [|c r]; [done|]. rewrite split_cons.
  destruct (Ascii.eqb c sep); [done|]. by destruct (split sep r).
Qed.

Lemma concat_cons sep x y l :
  String.concat sep (x :: y :: l) = x +:+ sep +:+ String.concat sep (y :: l).
Proof. done. Qed.

Lemma split_concat sep s :
  String.concat (String sep EmptyString) (split sep s) = s.
Proof.
  induction s as [|c r IH]; [done|]. rewrite split_cons.
  pose proof (split_not_nil sep r) as Hnil.
  destruct (Ascii.eqb_spec c sep) as [->|Hne];
    destruct (split sep r) as [|y l] eqn:E; try done.
  - by rewrite concat_cons, IH.
  - destruct l as [|z l].
    + simpl in *. by rewrite IH.
    + rewrite concat_cons in *. by rewrite <- IH.
Qed.

Lemma split_no_sep sep s piece :
  piece ∈ split sep s → sep ∉ list_ascii_of_string piece.
Proof.
  revert piece. induction s as [|c r IH]; intros piece.
  - intros ->%list_elem_of_singleton. apply not_elem_of_nil.
  - rewrite split_cons. pose proof (split_not_nil sep r) as Hnil.
    destruct (Ascii.eqb_spec c sep) as [->|Hne].
    + intros [->|H]%elem_of_cons; [apply not_elem_of_nil | by apply IH].
    + destruct (split sep r) as [|y l] eqn:E; [done|].
      intros [->|H]%elem_of_cons.
      * simpl. rewrite not_elem_of_cons. split; [done|].
        apply IH, list_elem_of_here.
      * apply IH. by right.
Qed.

(** X11.  Joining the pieces of [split] with the separator gives the string
    back; there is always a piece, and no piece holds the separator. *)
Theorem split_join sep s :
  String.concat (String sep EmptyString) (split sep s) = s
  ∧ split sep s ≠ []
  ∧ ∀ piece, piece ∈ split sep s → sep ∉ list_ascii_of_string piece.
Proof.
  split; [apply split_concat|]. split; [apply split_not_nil|].
  intros piece. apply split_no_sep.
Qed.

Lemma trimStart_chars s c :
  c ∈ list_ascii_of_string (trimStart s) → c ∈ list_ascii_of_string s.
Proof.
  induction s as [|a r IH]; simpl; [done|].
  destruct (isWhiteSpace a); [|done]. intros H. right. by apply IH.
Qed.

Lemma trimEnd_chars s c :
  c ∈ list_ascii_of_string (trimEnd s) → c ∈ list_ascii_of_string s.
Proof.
  revert c. induction s as [|a r IH]; intros c; simpl; [done|].
  destruct (trimEnd r) as [|b r'] eqn:E.
  - destruct (isWhiteSpace a); simpl; [by intros ?%elem_of_nil|].
    intros [->|H]%elem_of_cons; [by left | by apply elem_of_nil in H].
  - simpl. intros [->|H]%elem_of_cons; [by left|]. right. by apply IH.
Qed.

Lemma trimEnd_idem s : trimEnd (trimEnd s) = trimEnd s.
Proof.
  induction s as [|a r IH]; simpl; [done|].
  destruct (trimEnd r) as [|b r'] eqn:E.
  - destruct (isWhiteSpace a) eqn:Ha; simpl; [done | by rewrite Ha].
  - change (trimEnd (String a (String b r')))
      with (match trimEnd (String b r') with
            | EmptyString => if isWhiteSpace a then EmptyString else String a EmptyString
            | x => String a x
            end).
    by rewrite IH.
Qed.

Lemma trimStart_head s :
  match trimStart s with
  | EmptyString => True
  | String c _ => isWhiteSpace c = false
  end.
Proof.
  induction s as [|a r IH]; simpl; [done|].
  destruct (isWhiteSpace a) eqn:Ha; [done | by simpl].
Qed.

Lemma trim_idem s : trim (trim s) = trim s.
Proof.
  unfold trim. pose proof (trimStart_head s) as Hh.
  destruct (trimStart s) as [|c r]; [done|].
  assert (H : trimStart (trimEnd (String c r)) = trimEnd (String c r)).
  { simpl. destruct (trimEnd r); rewrite ?Hh; simpl; by rewrite Hh. }
  by rewrite H, trimEnd_idem.
Qed.

(** X12.  The configured categories are never empty (an empty setting gives
    one empty category), one per piece of the setting, each trimmed and
    without a comma. *)
Theorem categoriesOf_spec env :
  categoriesOf env ≠ []
  ∧ length (categoriesOf env) = length (split "," (Env.CATEGORIES env))
  ∧ ∀ category, category ∈ categoriesOf env →
      trim category = category
      ∧ ("," : ascii) ∉ list_ascii_of_string category.
Proof.
  unfold categoriesOf.
  pose proof (split_not_nil "," (Env.CATEGORIES env)) as Hnil.
  split; [|split].
  - by destruct (split "," (Env.CATEGORIES env)).
  - by rewrite length_map.
  - intros category (piece & -> & Hin)%list_elem_of_fmap.
    split; [apply trim_idem|].
    intros H. apply (split_no_sep "," _ piece Hin).
    by apply trimStart_chars, trimEnd_chars.
Qed.

(** X13.  Over any sequence of calls of [sendThrottledAlert] in each of
    which the clock does not go back between the check and the write,
    each recorded alert comes at least [ALERT_THROTTLE_MS] after the one
    before it, starting from the instant already stored. *)
Theorem alerts_are_spaced lastAlert calls :
  Forall (fun call => (call.1.1 <= call.1.2)%Z) calls →
  Sorted (fun a b => (a + ALERT_THROTTLE_MS <= b)%Z)
    (match lastAlert with
     | Some t => t :: (alertRuns lastAlert calls).1
     | None => (alertRuns lastAlert calls).1
     end).
Proof.
  intros Hclock. revert lastAlert.
  induction Hclock as [|[[now sentAt] ok] calls Hle _ IH]; intros lastAlert.
  - destruct lastAlert; simpl; repeat constructor.
  - simpl in Hle. simpl. unfold sendThrottledAlert.
    destruct lastAlert as [t|].
    + destruct (now - t <? ALERT_THROTTLE_MS)%Z eqn:Hlt.
      * specialize (IH (Some t)). by destruct (alertRuns (Some t) calls).
      * destruct ok.
        -- specialize (IH (Some sentAt)). destruct (alertRuns (Some sentAt) calls).
           simpl in *. constructor; [done|]. constructor.
           apply Z.ltb_ge in Hlt. lia.
        -- specialize (IH (Some t)). by destruct (alertRuns (Some t) calls).
    + simpl. destruct ok.
      * specialize (IH (Some sentAt)). by destruct (alertRuns (Some sentAt) calls).
      * specialize (IH None). by destruct (alertRuns None calls).
Qed.

(** X14.  The subject is the fixed prefix followed by a list of parts that is
    not empty exactly when [hasChanges] holds. *)
Theorem buildSubject_names_changes changes :
  (∃ parts, buildSubject changes = "Arc'teryx Outlet: " +:+ parts
            ∧ (parts ≠ EmptyString ↔ hasChanges changes = true)).
Proof.
  destruct changes as [n d r]. unfold buildSubject, hasChanges. simpl.
  eexists. split; [reflexivity|].
  destruct n as [|n0 n]; destruct d as [|d0 d]; simpl.
  - done.
  - split; [done|]. intros _. by destruct (pretty (S (length d))).
  - split; [done|]. intros _. by destruct (pretty (S (length n))).
  - split; [done|]. intros _. by destruct (pretty (S (length n))).
Qed.
End ConfigMore.

(** * Further properties of the scraper *)

Section SizeDataMore.

Lemma sizeIdToLabelOf_snoc opts opt :
  sizeIdToLabelOf (opts ++ [opt])
  = <[SizeOption.value opt := SizeOption.label opt]> (sizeIdToLabelOf opts).
Proof. unfold sizeIdToLabelOf. by rewrite foldl_snoc. Qed.

Lemma sizeIdToLabelOf_Some opts k l :
  sizeIdToLabelOf opts !! k = Some l →
  ∃ opt, opt ∈ opts ∧ SizeOption.value opt = k ∧ SizeOption.label opt = l.
Proof.
  induction opts as [|opt opts IH] using rev_ind; [done|].
  rewrite sizeIdToLabelOf_snoc, lookup_insert_Some.
  intros [[<- <-]|[_ H]].
  - exists opt. split; [|done]. apply elem_of_app. right. apply list_elem_of_here.
  - destruct (IH H) as (o & Ho & ?). exists o. split; [|done].
    apply elem_of_app. by left.
Qed.

Lemma inStock_loop m variants :
  let sizes := foldl (inStockStep m) [] variants in
  NoDup sizes
  ∧ ∀ l, l ∈ sizes
         ↔ l ≠ EmptyString
           ∧ ∃ v, v ∈ variants
                  ∧ isInStock (Variant.stockStatus v) = true
                  ∧ m !! Variant.sizeId v = Some l.
Proof.
  induction variants as [|v variants IH] using rev_ind.
  - simpl. split; [constructor|]. intros l. split; [by intros ?%elem_of_nil|].
    by intros (_ & v & ?%elem_of_nil & _).
  - cbv zeta in *. rewrite foldl_snoc. destruct IH as [Hnd Hiff].
    set (acc := foldl (inStockStep m) [] variants) in *.
    assert (Hold : ∀ l, (l ≠ EmptyString
              ∧ ∃ v0, v0 ∈ variants ++ [v]
                      ∧ isInStock (Variant.stockStatus v0) = true
                      ∧ m !! Variant.sizeId v0 = Some l)
            ↔ l ∈ acc
              ∨ (l ≠ EmptyString ∧ isInStock (Variant.stockStatus v) = true
                 ∧ m !! Variant.sizeId v = Some l)).
    { intros l. rewrite Hiff. split.
      - intros (Hl & v0 & Hv0 & Hs & Hm).
        apply elem_of_app in Hv0 as [Hv0|Hv0].
        + left. eauto.
        + apply list_elem_of_singleton in Hv0 as ->. by right.
      - intros [(Hl & v0 & Hv0 & Hs & Hm)|(Hl & Hs & Hm)].
        + split; [done|]. exists v0. split; [|done]. apply elem_of_app. by left.
        + split; [done|]. exists v. split; [|done]. apply elem_of_app. right.
          apply list_elem_of_here. }
    unfold inStockStep.
    destruct (isInStock (Variant.stockStatus v)) eqn:Hs.
    2:{ split; [done|]. intros l. rewrite Hold. intuition congruence. }
    destruct (m !! Variant.sizeId v) as [label|] eqn:Hm.
    2:{ split; [done|]. intros l. rewrite Hold. intuition congruence. }
    destruct (String.eqb_spec label EmptyString) as [->|Hne]; simpl.
    { split; [done|]. intros l. rewrite Hold. intuition congruence. }
    destruct (decide (label ∈ acc)) as [Hin|Hnin].
    + rewrite bool_decide_eq_true_2 by done. simpl.
      split; [done|]. intros l. rewrite Hold. intuition congruence.
    + rewrite bool_decide_eq_false_2 by done. simpl. split.
      * apply NoDup_app. split; [done|]. split; [|apply NoDup_singleton].
        intros x Hx Hx'. apply list_elem_of_singleton in Hx' as ->. done.
      * intros l. rewrite Hold, elem_of_app, list_elem_of_singleton. intuition congruence.
Qed.

(** X15.  The in-stock sizes have no duplicate; a label is among them exactly
    when it is not empty and is the label the size map holds for the size
    id of a variant that is [InStock] or [LowStock]; each is one of
    [allSizes], the labels of the size options. *)
Theorem sizeDataOf_spec product :
  let sizeOptions := default [] (ProductJson.sizeOptions product) in
  let variants := default [] (ProductJson.variants product) in
  let sizeData := sizeDataOf product in
  NoDup (SizeData.sizes sizeData)
  ∧ SizeData.allSizes sizeData = map SizeOption.label sizeOptions
  ∧ (∀ label, label ∈ SizeData.sizes sizeData
       ↔ label ≠ EmptyString
         ∧ ∃ v, v ∈ variants
                ∧ (Variant.stockStatus v = "InStock"
                   ∨ Variant.stockStatus v = "LowStock")
                ∧ sizeIdToLabelOf sizeOptions !! Variant.sizeId v = Some label)
  ∧ (∀ label, label ∈ SizeData.sizes sizeData →
              label ∈ SizeData.allSizes sizeData).
Proof.
  intros sizeOptions variants sizeData.
  destruct (inStock_loop (sizeIdToLabelOf sizeOptions) variants) as [Hnd Hiff].
  assert (Hstock : ∀ s, isInStock s = true ↔ s = "InStock" ∨ s = "LowStock").
  { intros s. unfold isInStock. rewrite orb_true_iff, !String.eqb_eq. done. }
  split; [exact Hnd|]. split; [done|]. split.
  - intros label. unfold sizeData, sizeDataOf. cbn [SizeData.sizes].
    fold sizeOptions variants. rewrite Hiff.
    split; intros (Hl & v & Hv & Hs & Hm); (split; [done|]); exists v;
      by rewrite Hstock in *.
  - intros label Hin. unfold sizeData, sizeDataOf in *. cbn [SizeData.sizes SizeData.allSizes] in *.
    fold sizeOptions variants in Hin. apply Hiff in Hin as (_ & v & _ & _ & Hm).
    apply sizeIdToLabelOf_Some in Hm as (opt & Hopt & _ & <-).
    apply list_elem_of_fmap. eauto.
Qed.
End SizeDataMore.

Section ExtractMore.
Variables (baseUrl category now : string).

Lemma extractTile_Some tile p path :
  extractTile baseUrl category now tile = Some (p, path) →
  ∃ href,
    Tile.link tile = Some href
    ∧ Tile.slug tile ≠ EmptyString
    ∧ (3 <= String.length (Tile.name tile))%nat
    ∧ path = Tile.path tile
    ∧ p = Product.mk (Tile.slug tile) (Tile.name tile) (Product.price p)
            (Product.originalPrice p) (Product.discount p)
            (if startsWith href "http" then href else baseUrl +:+ href)
            (Tile.image tile) [] [] category now.
Proof.
  unfold extractTile. destruct (Tile.link tile) as [href|]; [|done].
  destruct (Tile.slug tile) as [|c s] eqn:Es; [done|].
  destruct (_ <? _)%nat eqn:Hn; [done|]. intros [= <- <-].
  exists href. apply Nat.ltb_ge in Hn. done.
Qed.

Lemma orNumber_amount o d :
  (∀ x, o = Some x → x = Number.NaN ∨ Number.isAmount x = true) →
  Number.isAmount d = true →
  Number.isAmount (orNumber o d) = true.
Proof.
  intros Ho Hd. destruct o as [x|]; simpl; [|done].
  destruct (Number.truthy x) eqn:Ht; [|done].
  destruct (Ho x eq_refl) as [->|H]; done.
Qed.

Lemma tilePrices_lookup text i x :
  tilePrices text !! i = Some x → x = Number.NaN ∨ Number.isAmount x = true.
Proof.
  intros H. pose proof (parsePrice_amount text) as Hall.
  rewrite Forall_forall in Hall. apply Hall. by eapply list_elem_of_lookup_2.
Qed.

Lemma extractTile_amounts tile p path :
  extractTile baseUrl category now tile = Some (p, path) →
  Number.isAmount (Product.price p) = true
  ∧ Number.isAmount (Product.originalPrice p) = true.
Proof.
  intros (Ho & Hs & _)%extractTile_fields. rewrite Ho, Hs. split.
  - apply orNumber_amount; [apply tilePrices_lookup|].
    apply orNumber_amount; [apply tilePrices_lookup | done].
  - apply orNumber_amount; [apply tilePrices_lookup | done].
Qed.

Lemma extractProducts_sized buildId tiles getSizes sizeFilter p :
  p ∈ extractProducts baseUrl category now buildId tiles getSizes sizeFilter →
  p ∈ sizedProducts baseUrl category now buildId tiles getSizes.
Proof.
  unfold extractProducts, sizedProducts. destruct buildId; [done|].
  destruct sizeFilter as [[|c f]|]; try done.
  intros [H _]%list_elem_of_In%filter_In. by apply list_elem_of_In.
Qed.

Lemma sizedProducts_origin buildId tiles getSizes p :
  p ∈ sizedProducts baseUrl category now buildId tiles getSizes →
  ∃ tile q path,
    tile ∈ tiles
    ∧ extractTile baseUrl category now tile = Some (q, path)
    ∧ p = Product.with_sizes q (Product.sizes p).
Proof.
  unfold sizedProducts. intros Hs.
  destruct buildId;
    apply list_elem_of_fmap in Hs as ([q path] & -> & Hq);
    apply list_elem_of_omap in Hq as (tile & Htile & Ht);
    exists tile, q, path; (split; [done|]); (split; [done|]).
  - by destruct q.
  - unfold withSizeData. simpl. destruct (getSizes path); [done | by destruct q].
Qed.

(** X16.  Every product [extractProducts] returns has a non-empty id, a name
    of at least three characters, the category and the time of the
    scrape, no colors, a price and an original price that are amounts
    (neither [NaN] nor negative), and the discount computed from them. *)
Theorem extractProducts_wellformed buildId tiles getSizes sizeFilter p :
  p ∈ extractProducts baseUrl category now buildId tiles getSizes sizeFilter →
  Product.id p ≠ EmptyString
  ∧ (3 <= String.length (Product.name p))%nat
  ∧ Product.category p = category
  ∧ Product.firstSeen p = now
  ∧ Product.colors p = []
  ∧ Number.isAmount (Product.price p) = true
  ∧ Number.isAmount (Product.originalPrice p) = true
  ∧ Product.discount p = discountOf (Product.originalPrice p) (Product.price p).
Proof.
  intros (tile & q & path & _ & Ht & ->)%extractProducts_sized%sizedProducts_origin.
  destruct (extractTile_amounts tile q path Ht) as [Hp Ho].
  destruct (extractTile_fields baseUrl category now tile q path Ht) as (_ & _ & Hd).
  destruct (extractTile_Some tile q path Ht) as (href & _ & Hslug & Hname & _ & Hq).
  simpl. rewrite Hq in *. simpl in *. done.
Qed.

Lemma tilePrices_descending text :
  Number.NaN ∉ map parsePrice (matchAllPrices 0 text) →
  Forall (fun x => Number.isAmount x = true) (tilePrices text)
  ∧ StronglySorted (fun a b => Number.le b a = true) (tilePrices text).
Proof.
  intros Hnan.
  assert (Hperm : tilePrices text ≡ₚ map parsePrice (matchAllPrices 0 text))
    by apply sort_perm.
  assert (Hall : Forall (fun x => Number.isAmount x = true) (tilePrices text)).
  { pose proof (parsePrice_amount text) as Hall.
    rewrite Forall_forall in Hall |- *.
    intros x Hx. destruct (Hall x Hx) as [->|H]; [|done].
    exfalso. apply Hnan. by rewrite <- Hperm. }
  split; [done|]. unfold tilePrices. apply sort_descending.
  rewrite <- Hperm. exact Hall.
Qed.

(** X17.  When every price string of a tile parses to a number, the price of
    its product is at most its original price. *)
Theorem price_le_originalPrice tile p path :
  extractTile baseUrl category now tile = Some (p, path) →
  Number.NaN ∉ map parsePrice (matchAllPrices 0 (Tile.innerText tile)) →
  Number.le (Product.price p) (Product.originalPrice p) = true.
Proof.
  intros (Ho & Hs & _)%extractTile_fields Hnan.
  destruct (tilePrices_descending _ Hnan) as [Hall Hsorted].
  rewrite Ho, Hs. unfold orNumber.
  destruct (tilePrices (Tile.innerText tile)) as [|h [|s rest]]; simpl.
  - done.
  - inversion_clear Hall. destruct (Number.truthy h); [by apply Number_le_refl | done].
  - inversion_clear Hall as [|? ? Hh Hrest]. inversion_clear Hrest as [|? ? Hs' _].
    inversion_clear Hsorted as [|? ? _ Hle]. inversion_clear Hle as [|? ? Hsh _].
    assert (Hh' : (if Number.truthy h then h else Number.zero) = h).
    { by destruct h as [[]|[]| |[] m e]. }
    rewrite Hh'. destruct (Number.truthy s); [done | by apply Number_le_refl].
Qed.
End ExtractMore.

Lemma extractProducts_wellformed_witness :
  let tiles := [sampleTile "Alpha Pant Men's $100.00 $80.00"] in
  let p := sampleExtracted in
  let products :=
    extractProducts "https://outlet.arcteryx.com" "mens/pants" "t1" "" tiles
      (fun _ => None) (Some "L") in
  p ∈ products
  ∧ Product.id p ≠ EmptyString
  ∧ (3 <= String.length (Product.name p))%nat
  ∧ Product.category p = "mens/pants"
  ∧ Product.firstSeen p = "t1"
  ∧ Product.colors p = []
  ∧ Number.isAmount (Product.price p) = true
  ∧ Number.isAmount (Product.originalPrice p) = true
  ∧ Product.discount p = discountOf (Product.originalPrice p) (Product.price p).
Proof.
  intros tiles p products.
  assert (H : p ∈ products).
  { unfold products, p. vm_compute. apply list_elem_of_here. }
  split; [exact H|].
  exact (extractProducts_wellformed "https://outlet.arcteryx.com" "mens/pants" "t1"
           "" tiles (fun _ => None) (Some "L") p H).
Defined.

Lemma price_le_originalPrice_witness :
  let tile := sampleTile "Alpha Pant Men's $100.00 $80.00" in
  let p := sampleExtracted in
  extractTile "https://outlet.arcteryx.com" "mens/pants" "t1" tile
  = Some (p, "/us/en/shop/mens/alpha-pant")
  ∧ (Number.NaN ∉ map parsePrice (matchAllPrices 0 (Tile.innerText tile)))
  ∧ Number.le (Product.price p) (Product.originalPrice p) = true.
Proof.
  intros tile p.
  assert (H : extractTile "https://outlet.arcteryx.com" "mens/pants" "t1" tile
              = Some (p, "/us/en/shop/mens/alpha-pant")) by (vm_compute; reflexivity).
  assert (Hnan : Number.NaN ∉ map parsePrice (matchAllPrices 0 (Tile.innerText tile))).
  { vm_compute. intros Hin. inversion Hin as [|? ? ? Hin']; subst.
    inversion Hin' as [|? ? ? Hin'']; subst. inversion Hin''. }
  split; [exact H|]. split; [exact Hnan|].
  exact (price_le_originalPrice "https://outlet.arcteryx.com" "mens/pants" "t1" tile p
           "/us/en/shop/mens/alpha-pant" H Hnan).
Defined.

Section FilterMore.
Variables (baseUrl category now : string).

Lemma sizeFilterKeeps_no_sizes f p :
  Product.sizes p = [] → sizeFilterKeeps f p = true.
Proof. unfold sizeFilterKeeps. by intros ->. Qed.

(** X18.  A product whose size data cannot be fetched is returned under every
    size filter. *)
Theorem unavailable_sizes_kept fetch buildId tiles sizeFilter tile p path :
  tile ∈ tiles →
  extractTile baseUrl category now tile = Some (p, path) →
  getProductSizeData fetch baseUrl buildId path = None →
  p ∈ extractProducts baseUrl category now buildId tiles
        (getProductSizeData fetch baseUrl buildId) sizeFilter.
Proof.
  intros Htile Hext Hnone.
  assert (Hpp : (p, path) ∈ pageProducts baseUrl category now tiles).
  { apply list_elem_of_omap. eauto. }
  assert (Hsz : Product.sizes p = []) by by eapply extractTile_sizes.
  unfold extractProducts. destruct buildId as [|c b].
  { apply list_elem_of_fmap. by exists (p, path). }
  assert (Hin : p ∈ map (withSizeData (getProductSizeData fetch baseUrl (String c b)))
                      (pageProducts baseUrl category now tiles)).
  { apply list_elem_of_fmap. exists (p, path). split; [|done].
    unfold withSizeData. simpl. by rewrite Hnone. }
  destruct sizeFilter as [[|c' f]|]; try done.
  apply list_elem_of_In, filter_In. split; [by apply list_elem_of_In|].
  by apply sizeFilterKeeps_no_sizes.
Qed.

Lemma sizeMatches_startsWith label filter :
  sizeMatches label filter = startsWith (normalizeSize label) (normalizeSize filter).
Proof.
  unfold sizeMatches.
  destruct (String.eqb_spec (normalizeSize label) (normalizeSize filter)) as [->|_].
  - symmetry. apply startsWith_iff. exists EmptyString.
    induction (normalizeSize filter) as [|c s IH]; [done|].
    by rewrite append_cons, <- IH.
  - by destruct (startsWith _ _).
Qed.

(** X19.  A size filter made of hyphens and spaces only matches every label,
    and [extractProducts] returns all products of the page under it. *)
Theorem blank_filter_keeps_all buildId tiles getSizes sizeFilter :
  normalizeSize sizeFilter = EmptyString →
  (∀ label, sizeMatches label sizeFilter = true)
  ∧ extractProducts baseUrl category now buildId tiles getSizes (Some sizeFilter)
    = sizedProducts baseUrl category now buildId tiles getSizes.
Proof.
  intros Hn.
  assert (Hall : ∀ label, sizeMatches label sizeFilter = true).
  { intros label. by rewrite sizeMatches_startsWith, Hn. }
  split; [exact Hall|].
  unfold extractProducts, sizedProducts. destruct buildId as [|c b]; [done|].
  destruct sizeFilter as [|c' f]; [done|].
  apply filter_all. intros p _. unfold sizeFilterKeeps.
  destruct (Product.sizes p) as [|s l]; [done|]. simpl. by rewrite Hall.
Qed.
End FilterMore.

Lemma unavailable_sizes_kept_witness :
  let tile := sampleTile "Alpha Pant Men's $100.00 $80.00" in
  let p := sampleExtracted in
  let fetch := fun _ : string => RouteNotOk 404 in
  let baseUrl := "https://outlet.arcteryx.com" in
  tile ∈ [tile]
  ∧ extractTile baseUrl "mens/pants" "t1" tile = Some (p, "/us/en/shop/mens/alpha-pant")
  ∧ getProductSizeData fetch baseUrl "build1" "/us/en/shop/mens/alpha-pant" = None
  ∧ p ∈ extractProducts baseUrl "mens/pants" "t1" "build1" [tile]
          (getProductSizeData fetch baseUrl "build1") (Some "L").
Proof.
  intros tile p fetch baseUrl.
  assert (H1 : tile ∈ [tile]) by apply list_elem_of_here.
  assert (H2 : extractTile baseUrl "mens/pants" "t1" tile
               = Some (p, "/us/en/shop/mens/alpha-pant")) by (vm_compute; reflexivity).
  assert (H3 : getProductSizeData fetch baseUrl "build1" "/us/en/shop/mens/alpha-pant"
               = None) by reflexivity.
  split; [exact H1|]. split; [exact H2|]. split; [exact H3|].
  exact (unavailable_sizes_kept baseUrl "mens/pants" "t1" fetch "build1" [tile]
           (Some "L") tile p "/us/en/shop/mens/alpha-pant" H1 H2 H3).
Defined.

Lemma blank_filter_keeps_all_witness :
  let tiles := [sampleTile "Alpha Pant Men's $100.00 $80.00"] in
  let getSizes := fun _ : string => Some (SizeData.mk ["M-R"] ["M-R"; "L-R"]) in
  normalizeSize " -" = EmptyString
  ∧ (∀ label, sizeMatches label " -" = true)
  ∧ extractProducts "https://outlet.arcteryx.com" "mens/pants" "t1" "build1" tiles
      getSizes (Some " -")
    = sizedProducts "https://outlet.arcteryx.com" "mens/pants" "t1" "build1" tiles
        getSizes.
Proof.
  intros tiles getSizes.
  assert (H : normalizeSize " -" = EmptyString) by reflexivity.
  split; [exact H|].
  exact (blank_filter_keeps_all "https://outlet.arcteryx.com" "mens/pants" "t1"
           "build1" tiles getSizes " -" H).
Defined.

Section SizeMatchMore.

Lemma toUpperChar_idem c : toUpperChar (toUpperChar c) = toUpperChar c.
Proof. by destruct c as [[] [] [] [] [] [] [] []]. Qed.

Lemma isHyphenOrSpace_toUpperChar c :
  isHyphenOrSpace (toUpperChar c) = isHyphenOrSpace c.
Proof. by destruct c as [[] [] [] [] [] [] [] []]. Qed.

Lemma toUpperCase_removeChars s :
  toUpperCase (removeChars isHyphenOrSpace s)
  = removeChars isHyphenOrSpace (toUpperCase s).
Proof.
  induction s as [|c s IH]; simpl; [done|].
  rewrite isHyphenOrSpace_toUpperChar.
  destruct (isHyphenOrSpace c); simpl; by rewrite IH.
Qed.

Lemma toUpperCase_idem s : toUpperCase (toUpperCase s) = toUpperCase s.
Proof. induction s as [|c s IH]; simpl; [done|]. by rewrite toUpperChar_idem, IH. Qed.

Lemma removeChars_idem f s : removeChars f (removeChars f s) = removeChars f s.
Proof.
  induction s as [|c s IH]; simpl; [done|].
  destruct (f c) eqn:Hc; simpl; [done|]. by rewrite Hc, IH.
Qed.

Lemma normalizeSize_idem s : normalizeSize (normalizeSize s) = normalizeSize s.
Proof.
  unfold normalizeSize.
  by rewrite toUpperCase_removeChars, toUpperCase_idem, removeChars_idem.
Qed.

Lemma removeChars_none f s c :
  c ∈ list_ascii_of_string (removeChars f s) → f c = false.
Proof.
  induction s as [|a s IH]; simpl; [by intros ?%elem_of_nil|].
  destruct (f a) eqn:Ha; [done|]. simpl.
  intros [->|H]%elem_of_cons; [done | by apply IH].
Qed.

(** X20.  Normalizing a normalized label changes nothing; a normalized label
    holds no hyphen and no space; [sizeMatches] gives the same answer on
    a label or a filter and on its normal form, and every label matches
    itself. *)
Theorem sizeMatches_ignores_format label filter :
  normalizeSize (normalizeSize label) = normalizeSize label
  ∧ (∀ c, c ∈ list_ascii_of_string (normalizeSize label) →
          c ≠ "-"%char ∧ c ≠ " "%char)
  ∧ sizeMatches (normalizeSize label) filter = sizeMatches label filter
  ∧ sizeMatches label (normalizeSize filter) = sizeMatches label filter
  ∧ sizeMatches label label = true.
Proof.
  split; [apply normalizeSize_idem|]. split; [|split; [|split]].
  - intros c Hc. apply removeChars_none in Hc. unfold isHyphenOrSpace in Hc.
    apply orb_false_iff in Hc as [H1 H2].
    split; intros ->; done.
  - by rewrite !sizeMatches_startsWith, normalizeSize_idem.
  - by rewrite !sizeMatches_startsWith, normalizeSize_idem.
  - unfold sizeMatches. by rewrite String.eqb_refl.
Qed.

Lemma append_assoc_string (a b c : string) : (a +:+ b) +:+ c = a +:+ (b +:+ c).
Proof. induction a as [|x a IH]; [done|]. by rewrite !append_cons, IH. Qed.

(** X21.  If a label matches a second one taken as filter, and that one
    matches a filter, the first label matches the filter. *)
Theorem sizeMatches_trans a b c :
  sizeMatches a b = true → sizeMatches b c = true → sizeMatches a c = true.
Proof.
  rewrite !sizeMatches_startsWith, !startsWith_iff.
  intros [r1 ->] [r2 ->]. exists (r2 +:+ r1). apply append_assoc_string.
Qed.
End SizeMatchMore.

Lemma sizeMatches_trans_witness :
  sizeMatches "L-R" "LR" = true
  ∧ sizeMatches "LR" "l" = true
  ∧ sizeMatches "L-R" "l" = true.
Proof.
  assert (H1 : sizeMatches "L-R" "LR" = true) by reflexivity.
  assert (H2 : sizeMatches "LR" "l" = true) by reflexivity.
  split; [exact H1|]. split; [exact H2|].
  exact (sizeMatches_trans "L-R" "LR" "l" H1 H2).
Defined.

Section ScrapeMore.

End ScrapeMore.

Section MatchMore.

Lemma matchAllPrices_elem skip text m :
  m ∈ matchAllPrices skip text → ∃ suffix, matchPriceAt suffix = Some m.
Proof.
  revert skip. induction text as [|c r IH]; intros skip; [by intros ?%elem_of_nil|].
  cbn [matchAllPrices]. destruct skip as [|k]; [|apply IH].
  destruct (matchPriceAt (String c r)) as [m'|] eqn:E; [|apply IH].
  intros [->|H]%elem_of_cons; [eauto | by eapply IH].
Qed.

Lemma span_spec f s :
  s = (span f s).1 +:+ (span f s).2
  ∧ Forall (fun c => f c = true) (list_ascii_of_string (span f s).1)
  ∧ match (span f s).2 with
    | EmptyString => True
    | String c _ => f c = false
    end.
Proof.
  induction s as [|c s IH]; simpl; [by repeat constructor|].
  destruct (f c) eqn:Hc; [|by repeat constructor].
  destruct (span f s) as [a b]. simpl in *. destruct IH as (IH1 & IH2 & IH3).
  split; [by rewrite append_cons, <- IH1|]. split; [by constructor | done].
Qed.

Lemma span_app f a b :
  Forall (fun c => f c = true) (list_ascii_of_string a) →
  match b with
  | EmptyString => True
  | String c _ => f c = false
  end →
  span f (a +:+ b) = (a, b).
Proof.
  intros Ha Hb. induction a as [|c a IH]; simpl in Ha.
  - change (EmptyString +:+ b) with b.
    destruct b as [|c b]; [done|]. simpl. by rewrite Hb.
  - inversion_clear Ha as [|? ? Hc Ha']. rewrite append_cons.
    cbn [span]. by rewrite Hc, (IH Ha').
Qed.

Lemma matchPriceAt_shape s m :
  matchPriceAt s = Some m →
  ∃ run frac,
    m = String "$" (run +:+ frac)
    ∧ run ≠ EmptyString
    ∧ Forall (fun c => isDigitOrComma c = true) (list_ascii_of_string run)
    ∧ (frac = EmptyString
       ∨ ∃ d1 d2, frac = String "." (String d1 (String d2 EmptyString))
                  ∧ isDigit d1 = true ∧ isDigit d2 = true).
Proof.
  unfold matchPriceAt. destruct s as [|c r]; [done|].
  destruct (Ascii.eqb_spec c "$") as [->|Hne].
  2:{ destruct c as [[] [] [] [] [] [] [] []]; done. }
  pose proof (span_spec isDigitOrComma r) as (_ & Hrun & _).
  destruct (span isDigitOrComma r) as [run rest]. simpl in Hrun.
  destruct run as [|c0 run0] eqn:Erun; [done|]. rewrite <- Erun in *.
  assert (Hplain : Some (String "$" run) = Some m →
            ∃ run' frac, m = String "$" (run' +:+ frac) ∧ run' ≠ EmptyString
              ∧ Forall (fun c => isDigitOrComma c = true) (list_ascii_of_string run')
              ∧ (frac = EmptyString
                 ∨ ∃ d1 d2, frac = String "." (String d1 (String d2 EmptyString))
                            ∧ isDigit d1 = true ∧ isDigit d2 = true)).
  { intros [= <-]. exists run, EmptyString. split.
    - f_equal. clear. induction run as [|x run IH]; [done|].
      by rewrite append_cons, <- IH.
    - split; [by rewrite Erun|]. split; [done | by left]. }
  destruct rest as [|c1 rest]; [exact Hplain|].
  destruct (Ascii.eqb_spec c1 ".") as [->|Hne1].
  2:{ destruct c1 as [[] [] [] [] [] [] [] []]; try exact Hplain. done. }
  destruct rest as [|d1 [|d2 rest]]; try exact Hplain.
  destruct (isDigit d1) eqn:H1; [|exact Hplain].
  destruct (isDigit d2) eqn:H2; [|exact Hplain]. simpl.
  intros [= <-]. exists run, (String "." (String d1 (String d2 EmptyString))).
  split; [done|]. split; [by rewrite Erun|]. split; [done|]. right. eauto.
Qed.

Lemma removeChars_app f a b :
  removeChars f (a +:+ b) = removeChars f a +:+ removeChars f b.
Proof.
  induction a as [|c a IH]; [done|]. rewrite append_cons. simpl.
  destruct (f c); [done|]. by rewrite append_cons, IH.
Qed.

Lemma removeChars_run run :
  Forall (fun c => isDigitOrComma c = true) (list_ascii_of_string run) →
  Forall (fun c => isDigit c = true)
    (list_ascii_of_string (removeChars isDollarOrComma run))
  ∧ (removeChars isDollarOrComma run = EmptyString
     ↔ ∀ c, c ∈ list_ascii_of_string run → isDigit c = false).
Proof.
  induction run as [|c run IH]; simpl.
  - intros _. split; [constructor|]. split; [|done]. by intros _ c ?%elem_of_nil.
  - intros Hall. inversion_clear Hall as [|? ? Hc Hrun].
    destruct (IH Hrun) as [IH1 IH2].
    unfold isDigitOrComma in Hc. unfold isDollarOrComma.
    destruct (Ascii.eqb_spec c ",") as [->|Hne].
    + rewrite orb_true_r. split; [done|]. rewrite IH2. split.
      * intros H c [->|Hin]%elem_of_cons; [done | by apply H].
      * intros H c Hin. apply H. by right.
    + rewrite orb_false_r in *.
      assert (Ascii.eqb c "$" = false) as ->.
      { destruct (Ascii.eqb_spec c "$") as [->|]; [done|done]. }
      simpl. split; [by constructor|]. split; [done|].
      intros H. specialize (H c (list_elem_of_here _ _)). congruence.
Qed.

(** X23.  Every price match of a text starts with a dollar sign; it parses to
    [NaN] exactly when it holds no digit, and to an amount otherwise. *)
Theorem price_match_shape text m :
  m ∈ matchAllPrices 0 text →
  (∃ rest, m = String "$" rest)
  ∧ (parsePrice m = Number.NaN
     ↔ ∀ c, c ∈ list_ascii_of_string m → isDigit c = false)
  ∧ (parsePrice m = Number.NaN ∨ Number.isAmount (parsePrice m) = true).
Proof.
  intros (suffix & (run & frac & -> & Hne & Hrun & Hfrac)%matchPriceAt_shape)
    %matchAllPrices_elem.
  split; [eauto|]. split; [|apply parseFloat_amount].
  destruct (removeChars_run run Hrun) as [Hds Hnil].
  set (ds := removeChars isDollarOrComma run) in *.
  assert (Hstrip : removeChars isDollarOrComma (String "$" (run +:+ frac)) = ds +:+ frac).
  { change (removeChars isDollarOrComma (String "$" (run +:+ frac)))
      with (removeChars isDollarOrComma (run +:+ frac)).
    rewrite removeChars_app. f_equal.
    destruct Hfrac as [->|(d1 & d2 & -> & H1 & H2)]; [done|].
    simpl. unfold isDollarOrComma.
    destruct d1 as [[] [] [] [] [] [] [] []]; try done;
      destruct d2 as [[] [] [] [] [] [] [] []]; done. }
  assert (Hnn : ∀ n t, (0 <= n)%Z → (0 < t)%Z →
            Number.div (Number.exact n) (Number.exact t) ≠ Number.NaN).
  { intros n t Hn Ht Heq. pose proof (div_exact_amount n t Hn Ht) as H.
    by rewrite Heq in H. }
  unfold parsePrice. rewrite Hstrip. unfold parseFloat.
  rewrite (span_app isDigit ds frac Hds).
  2:{ by destruct Hfrac as [->|(d1 & d2 & -> & _)]. }
  destruct Hfrac as [->|(d1 & d2 & -> & H1 & H2)].
  - assert (Happ : ds +:+ EmptyString = ds).
    { clear. induction ds as [|x ds IH]; [done|]. by rewrite append_cons, IH. }
    rewrite Happ.
    destruct ds as [|c0 ds0] eqn:Eds.
    + split; [|done]. intros _ c [->|Hin]%elem_of_cons; [done|].
      rewrite list_ascii_of_string_app, app_nil_r in Hin. by apply Hnil.
    + split.
      * intros Hnan. exfalso. revert Hnan. apply Hnn; [|done].
        by apply decimalValue_nonneg.
      * intros Hno. exfalso.
        assert (String c0 ds0 = EmptyString); [|done].
        apply Hnil. intros c Hc. apply Hno. right.
        rewrite list_ascii_of_string_app. apply elem_of_app. by left.
  - simpl fst. rewrite H1, H2. simpl fst.
    split.
    + intros Hnan. exfalso. revert Hnan.
      destruct (ds +:+ String d1 (String d2 "")) as [|c0 s0] eqn:E.
      { destruct ds; done. }
      apply Hnn; [|apply Z.pow_pos_nonneg; lia].
      apply decimalValue_nonneg; [|done]. rewrite <- E, list_ascii_of_string_app.
      apply Forall_app. split; [done|]. by repeat constructor.
    + intros Hno. exfalso.
      assert (isDigit d1 = false); [|congruence].
      apply Hno. right. rewrite list_ascii_of_string_app. apply elem_of_app. right.
      simpl. right. by left.
Qed.
End MatchMore.

Lemma price_match_shape_witness :
  let text := "Alpha Pant Men's $100.00 $80.00" in
  "$100.00" ∈ matchAllPrices 0 text
  ∧ (∃ rest, "$100.00" = String "$" rest)
  ∧ (parsePrice "$100.00" = Number.NaN
     ↔ ∀ c, c ∈ list_ascii_of_string "$100.00" → isDigit c = false)
  ∧ (parsePrice "$100.00" = Number.NaN
     ∨ Number.isAmount (parsePrice "$100.00") = true).
Proof.
  intros text.
  assert (H : "$100.00" ∈ matchAllPrices 0 text).
  { vm_compute. apply list_elem_of_here. }
  split; [exact H|]. exact (price_match_shape text "$100.00" H).
Defined.

Lemma alerts_are_spaced_witness :
  let calls :=
    [(0, 5, true); (100, 101, true); (21600005, 21600006, false);
     (21600010, 21600012, true)]%Z in
  Forall (fun call => (call.1.1 <= call.1.2)%Z) calls
  ∧ Sorted (fun a b => (a + ALERT_THROTTLE_MS <= b)%Z) (alertRuns None calls).1.
Proof.
  intros calls.
  assert (H : Forall (fun call => (call.1.1 <= call.1.2)%Z) calls).
  { repeat constructor; simpl; lia. }
  split; [exact H|]. exact (alerts_are_spaced None calls H).
Defined.
